(** * The lightbox gallery of [js/scripts.js]

    A shallow embedding of the [Lightbox] class (section 3 of the script):
    its constructor, [open], [close], [next], [prev], [updateLightbox] and
    the listeners that [init] and [setupModalListeners] register, followed
    by the properties of its paging state; then the markup of its modal,
    the [MobileMenu] class (section 2) on the same document, and [debounce]
    and [throttle] of [Utilities] (section 5). *)

From Stdlib Require Import ZArith Lia.
From stdpp Require Import base decidable option list strings gmap pretty.

Local Open Scope Z_scope.

(** ** The fragment of JavaScript the class uses *)

Module JS.

(** Values that reach a string position: the result of [getAttribute]
    ([null] or a string) and of reading [src] / [alt] off an element
    ([undefined] when the element is not an image). *)
Inductive Value :=
| Undefined
| Null
| Str (s : string).

Definition truthy (v : Value) : bool :=
  match v with
  | Str s => negb (String.eqb s "")
  | _ => false
  end.

(** [a || b] *)
Definition or (a b : Value) : Value := if truthy a then a else b.

Definition ToString (v : Value) : string :=
  match v with
  | Undefined => "undefined"
  | Null => "null"
  | Str s => s
  end.

(** Numbers.  Every number the class computes is an index, a length or
    one off either, so it is an integer far inside the range where double
    arithmetic is exact; the only other number that arises is [NaN], from
    [% 0]; an argument handed to [open] from outside is taken to be of the
    same kind.  The operations below are the exact ones, which is what
    doubles compute while operands and results stay within [2^53] in absolute
    value; a statement about an index outside the gallery names that bound.
    Negative zero is identified with zero: the class only adds to
    its numbers, indexes with them and prints them, and none of these tells
    the two apart. *)
Inductive Number :=
| Int (z : Z)
| NaN.

Definition add (a b : Number) : Number :=
  match a, b with
  | Int x, Int y => Int (x + y)
  | _, _ => NaN
  end.

Definition sub (a b : Number) : Number :=
  match a, b with
  | Int x, Int y => Int (x - y)
  | _, _ => NaN
  end.

(** [a % b]: the remainder takes the sign of the dividend, and is [NaN]
    when the divisor is zero. *)
Definition rem (a b : Number) : Number :=
  match a, b with
  | Int x, Int y => if decide (y = 0) then NaN else Int (Z.rem x y)
  | _, _ => NaN
  end.

(** Integers of this size print in plain decimal. *)
Definition NumberToString (n : Number) : string :=
  match n with
  | Int z => pretty z
  | NaN => "NaN"
  end.

(** [l.length] and [l[k]] on an array or a NodeList: any key that is not
    an index below the length reads [undefined], here [None]. *)
Definition length {A} (l : list A) : Number := Int (Z.of_nat (List.length l)).

Definition index {A} (l : list A) (k : Number) : option A :=
  match k with
  | Int z => if decide (0 ≤ z) then l !! Z.to_nat z else None
  | NaN => None
  end.

Inductive Error :=
| TypeError
| RangeError.

Inductive Completion (A : Type) :=
| Normal (a : A)
| Throw (e : Error).
Global Arguments Normal {A} a.
Global Arguments Throw {A} e.

(** A statement sequence over a mutable store [S]: what was written
    before a throw stays written. *)
Definition M (S A : Type) : Type := S → Completion A * S.

Definition ret {S A} (a : A) : M S A := λ s, (Normal a, s).

Definition bind {S A B} (m : M S A) (k : A → M S B) : M S B :=
  λ s, match m s with
       | (Normal a, s') => k a s'
       | (Throw e, s') => (Throw e, s')
       end.

Definition throw {S A} (e : Error) : M S A := λ s, (Throw e, s).
Definition get {S} : M S S := λ s, (Normal s, s).
Definition modify {S} (f : S → S) : M S unit := λ s, (Normal tt, f s).

(** [o.m(...)] where [o] may be [undefined] *)
Definition deref {S A} (o : option A) : M S A :=
  match o with
  | Some a => ret a
  | None => throw TypeError
  end.

Definition completion {S A} (r : Completion A * S) : Completion A := r.1.
Definition store {S A} (r : Completion A * S) : S := r.2.

End JS.

Declare Scope js_scope.
Delimit Scope js_scope with js.
Notation "x <- m ;; k" := (JS.bind m (λ x, k))
  (at level 100, m at next level, right associativity) : js_scope.
Notation "m ;; k" := (JS.bind m (λ _, k))
  (at level 100, right associativity) : js_scope.

(** ** The page *)

(** A gallery item: its content attributes, and the [src] and [alt]
    properties as the script reads them. *)
Record Element := {
  attributes : gmap string string;
  src : JS.Value;
  alt : JS.Value;
}.

Definition getAttribute (e : Element) (name : string) : JS.Value :=
  match attributes e !! name with
  | Some s => JS.Str s
  | None => JS.Null
  end.

(** The overlay that [createModal] injects: whether its class list holds
    [active], and the parts [updateLightbox] writes. *)
Record Modal := {
  active : bool;
  image_src : string;
  image_alt : string;
  image_animation : string;
  caption_textContent : string;
  current_textContent : string;
  total_textContent : string;
}.

(** The fields of a [Lightbox] instance together with the one document
    property it writes, [document.body.style.overflow]. *)
Record Page := {
  items : list Element;
  modal : Modal;
  currentIndex : JS.Number;
  body_overflow : string;
}.

Definition set_currentIndex (n : JS.Number) (p : Page) : Page :=
  {| items := items p; modal := modal p; currentIndex := n;
     body_overflow := body_overflow p |}.

Definition set_modal (m : Modal) (p : Page) : Page :=
  {| items := items p; modal := m; currentIndex := currentIndex p;
     body_overflow := body_overflow p |}.

Definition set_body_overflow (v : string) (p : Page) : Page :=
  {| items := items p; modal := modal p; currentIndex := currentIndex p;
     body_overflow := v |}.

Definition set_active (b : bool) (m : Modal) : Modal :=
  {| active := b; image_src := image_src m; image_alt := image_alt m;
     image_animation := image_animation m;
     caption_textContent := caption_textContent m;
     current_textContent := current_textContent m;
     total_textContent := total_textContent m |}.

(** The seven assignments of [updateLightbox], which leave the class list
    alone. *)
Definition render (item : Element) (index : JS.Number) (total : JS.Number)
    (m : Modal) : Modal :=
  {| active := active m;
     image_src :=
       JS.ToString (JS.or (getAttribute item "data-src") (src item));
     image_alt :=
       JS.ToString (JS.or (JS.or (getAttribute item "data-alt") (alt item))
                          (JS.Str ""));
     image_animation := "fadeIn 0.3s ease-in-out";
     caption_textContent :=
       JS.ToString (JS.or (getAttribute item "data-caption") (JS.Str ""));
     current_textContent := JS.NumberToString (JS.add index (JS.Int 1));
     total_textContent := JS.NumberToString total |}.

(** The modal as [createModal] builds it. *)
Definition createModal : Modal :=
  {| active := false; image_src := ""; image_alt := "";
     image_animation := ""; caption_textContent := "";
     current_textContent := ""; total_textContent := "" |}.

(** ** The class *)

Module Lightbox.

Local Open Scope js_scope.

Definition Method := JS.M Page unit.

(** [constructor]: [gallery] is what [document.querySelector] found,
    given by the items below it; [overflow] is the page's
    [body.style.overflow] at that time, which the constructor does not
    touch. *)
Definition constructor (gallery : option (list Element)) (overflow : string)
    : Page :=
  {| items := match gallery with Some found => found | None => [] end;
     modal := createModal;
     currentIndex := JS.Int 0;
     body_overflow := overflow |}.

Definition updateLightbox : Method :=
  this <- JS.get ;;
  item <- JS.deref (JS.index (items this) (currentIndex this)) ;;
  JS.modify (set_modal
    (render item (currentIndex this) (JS.length (items this)) (modal this))).

Definition open (index : JS.Number) : Method :=
  JS.modify (set_currentIndex index) ;;
  updateLightbox ;;
  JS.modify (λ p, set_modal (set_active true (modal p)) p) ;;
  JS.modify (set_body_overflow "hidden").

Definition close : Method :=
  JS.modify (λ p, set_modal (set_active false (modal p)) p) ;;
  JS.modify (set_body_overflow "").

Definition next : Method :=
  this <- JS.get ;;
  JS.modify (set_currentIndex
    (JS.rem (JS.add (currentIndex this) (JS.Int 1)) (JS.length (items this)))) ;;
  updateLightbox.

Definition prev : Method :=
  this <- JS.get ;;
  JS.modify (set_currentIndex
    (JS.rem (JS.add (JS.sub (currentIndex this) (JS.Int 1))
                    (JS.length (items this)))
            (JS.length (items this)))) ;;
  updateLightbox.

(** *** The listeners

    [init] binds a click listener to each gallery item, closing over its
    position; [setupModalListeners] binds the controls of the modal and
    one [keydown] listener on the document.  In the latter,
    [querySelector('[data-lightbox-close]')] returns the first match in
    document order, which is the overlay and not the close button: the
    overlay carries both [close] listeners and the button none. *)
Inductive Target :=
| GalleryItem (position : nat)
| Overlay
| CloseButton
| PrevButton
| NextButton.

Inductive Event :=
| Click (target : Target)
| KeyDown (key : string).

Definition isOpen (p : Page) : bool := active (modal p).

Definition onKeyDown (key : string) : Method :=
  this <- JS.get ;;
  if negb (isOpen this) then JS.ret tt
  else if String.eqb key "ArrowLeft" then prev
  else if String.eqb key "ArrowRight" then next
  else if String.eqb key "Escape" then close
  else JS.ret tt.

(** One listener's run.  An error thrown by a listener is reported by
    the host and does not reach the next listener or the next event. *)
Definition listener (m : Method) (p : Page) : Page := JS.store (m p).

Definition dispatch (e : Event) (p : Page) : Page :=
  match e with
  | Click (GalleryItem position) =>
      if decide (position < List.length (items p))%nat
      then listener (open (JS.Int (Z.of_nat position))) p
      else p
  | Click Overlay => listener close (listener close p)
  | Click CloseButton => p
  | Click PrevButton => listener prev p
  | Click NextButton => listener next p
  | KeyDown key => listener (onKeyDown key) p
  end.

Definition dispatch_all (es : list Event) (p : Page) : Page :=
  foldl (λ q e, dispatch e q) p es.

(** *** Direct calls, for a holder of the exported class *)
Inductive Call :=
| CallOpen (index : JS.Number)
| CallClose
| CallNext
| CallPrev.

Definition call (c : Call) : Method :=
  match c with
  | CallOpen index => open index
  | CallClose => close
  | CallNext => next
  | CallPrev => prev
  end.

Definition call_all (cs : list Call) (p : Page) : Page :=
  foldl (λ q c, listener (call c) q) p cs.

(** [n] calls of [m] in a row, each run to completion *)
Fixpoint times (n : nat) (m : Method) (p : Page) : Page :=
  match n with
  | O => p
  | S k => times k m (listener m p)
  end.

End Lightbox.

(** ** A three-item gallery and an empty one *)

Definition picture (file caption : string) : Element :=
  {| attributes := {[ "data-src" := file; "data-caption" := caption ]};
     src := JS.Undefined; alt := JS.Undefined |}.

Definition gallery3 : list Element :=
  [picture "a.jpg" "A"; picture "b.jpg" "B"; picture "c.jpg" "C"].

Definition page3 : Page := Lightbox.constructor (Some gallery3) "".
Definition page0 : Page := Lightbox.constructor None "".

(** The three-item gallery opened on its last item. *)
Definition showing_last : Page := JS.store (Lightbox.open (JS.Int 2) page3).

(** What the modal shows: caption, counter, total. *)
Definition shown (p : Page) : string * string * string :=
  (caption_textContent (modal p), current_textContent (modal p),
   total_textContent (modal p)).

(** ** Notions the properties are stated with *)

Definition itemCount (p : Page) : Z := Z.of_nat (List.length (items p)).

(** [0 <= currentIndex < itemCount] *)
Definition in_range (p : Page) : Prop :=
  match currentIndex p with
  | JS.Int c => 0 ≤ c < itemCount p
  | JS.NaN => False
  end.

Global Instance in_range_dec (p : Page) : Decision (in_range p).
Proof. unfold in_range. destruct (currentIndex p); apply _. Defined.

(** Background scrolling is disallowed. *)
Definition scroll_locked (p : Page) : bool :=
  String.eqb (body_overflow p) "hidden".

(** The modal is inactive and the page scrolls. *)
Definition closed (p : Page) : Prop :=
  Lightbox.isOpen p = false ∧ body_overflow p = "".

(** The lock is held exactly while the modal is active, and free
    otherwise. *)
Definition lock_balanced (p : Page) : Prop :=
  body_overflow p = if Lightbox.isOpen p then "hidden" else "".

(** The index expressions of [next] and [prev], and the page after the
    index has been stored and the render attempted. *)
Definition next_index (p : Page) : JS.Number :=
  JS.rem (JS.add (currentIndex p) (JS.Int 1)) (JS.length (items p)).

Definition prev_index (p : Page) : JS.Number :=
  JS.rem (JS.add (JS.sub (currentIndex p) (JS.Int 1)) (JS.length (items p)))
         (JS.length (items p)).

Definition moved_to (k : JS.Number) (p : Page) : JS.Completion unit * Page :=
  match JS.index (items p) k with
  | Some item =>
      (JS.Normal tt,
       set_modal (render item k (JS.length (items p)) (modal p))
                 (set_currentIndex k p))
  | None => (JS.Throw JS.TypeError, set_currentIndex k p)
  end.

(** ** Further notions *)

(** The modal shows the item at [currentIndex]: its fields are the ones
    the render writes for that item. *)
Definition shows_current (p : Page) : Prop :=
  ∃ item,
    JS.index (items p) (currentIndex p) = Some item ∧
    modal p = render item (currentIndex p) (JS.length (items p)) (modal p).

(** What [item.alt] contributes to [... || item.alt || ''] *)
Definition alt_or_empty (e : Element) : string :=
  match alt e with
  | JS.Str t => t
  | _ => ""
  end.

(** ** The modal's markup and the listeners bound to it *)

Module Dom.

(** An element: tag, classes, attributes, children in document order. *)
#[warnings="-register-all"] Inductive Tree :=
| Node (tag : string) (classes : list string) (attrs : list (string * string))
       (children : list Tree).

(** The elements of a tree numbered in document order, each with the
    number of its parent. *)
Record Entry := {
  parent : option nat;
  tag : string;
  classes : list string;
  attrs : list (string * string);
}.

Fixpoint walk (above : option nat) (t : Tree) (seen : list Entry) : list Entry :=
  match t with
  | Node tg cls ats kids =>
      let me := List.length seen in
      (fix each (ks : list Tree) (seen : list Entry) : list Entry :=
         match ks with
         | [] => seen
         | k :: ks' => each ks' (walk (Some me) k seen)
         end)
        kids
        (seen ++ [{| parent := above; tag := tg; classes := cls; attrs := ats |}])
  end.

Definition table (t : Tree) : list Entry := walk None t [].

(** The ancestors of an element, nearest first. *)
Fixpoint ancestors_within (fuel : nat) (tbl : list Entry) (k : nat) : list nat :=
  match fuel with
  | O => []
  | S fuel' =>
      match tbl !! k with
      | Some e =>
          match parent e with
          | Some a => a :: ancestors_within fuel' tbl a
          | None => []
          end
      | None => []
      end
  end.

Definition ancestors (tbl : list Entry) (k : nat) : list nat :=
  ancestors_within (List.length tbl) tbl k.

(** The selectors the class uses: [[name]], [.name], and chains of these
    joined by the descendant combinator. *)
Inductive Simple :=
| Attr (name : string)
| Class (name : string).

Definition Selector := list Simple.

Definition has (s : Simple) (e : Entry) : bool :=
  match s with
  | Attr name => bool_decide (name ∈ (attrs e).*1)
  | Class name => bool_decide (name ∈ classes e)
  end.

Definition has_at (tbl : list Entry) (s : Simple) (k : nat) : bool :=
  match tbl !! k with
  | Some e => has s e
  | None => false
  end.

(** The outer parts of a chain, innermost first, are each met by some
    ancestor, in order going up. *)
Fixpoint met_above (tbl : list Entry) (outer : list Simple) (up : list nat) : bool :=
  match outer with
  | [] => true
  | s :: outer' =>
      (fix search (up : list nat) : bool :=
         match up with
         | [] => false
         | a :: up' => (has_at tbl s a && met_above tbl outer' up') || search up'
         end) up
  end.

Definition matches (tbl : list Entry) (sel : Selector) (k : nat) : bool :=
  match reverse sel with
  | [] => false
  | s :: outer => has_at tbl s k && met_above tbl outer (ancestors tbl k)
  end.

(** [root.querySelector(sel)]: the first descendant of [root], in document
    order, that the selector matches; [None] for [null]. *)
Definition querySelector (tbl : list Entry) (root : nat) (sel : Selector)
    : option nat :=
  List.find (λ k, bool_decide (root ∈ ancestors tbl k) && matches tbl sel k)
            (seq 0 (List.length tbl)).

(** The markup of [createModal]. *)
Definition modalHTML : Tree :=
  Node "div" ["lightbox-modal"] [("data-lightbox-modal", "")] [
    Node "div" ["lightbox-overlay"] [("data-lightbox-close", "")] [];
    Node "div" ["lightbox-container"] [] [
      Node "button" ["lightbox-close"]
           [("data-lightbox-close", ""); ("aria-label", "Close")] [
        Node "span" ["close-icon"] [] []];
      Node "button" ["lightbox-nav"; "lightbox-prev"]
           [("data-lightbox-prev", ""); ("aria-label", "Previous")] [
        Node "span" ["nav-icon"] [] []];
      Node "div" ["lightbox-content"] [] [
        Node "img" ["lightbox-image"] [("src", ""); ("alt", "")] [];
        Node "div" ["lightbox-caption"] [] []];
      Node "button" ["lightbox-nav"; "lightbox-next"]
           [("data-lightbox-next", ""); ("aria-label", "Next")] [
        Node "span" ["nav-icon"] [] []];
      Node "div" ["lightbox-counter"] [] [
        Node "span" ["current"] [] [];
        Node "span" ["total"] [] []]]].

Definition modalTable : list Entry := table modalHTML.

(** [this.modal], the root of the markup just appended. *)
Definition this_modal : nat := 0.

Definition modal_querySelector (sel : Selector) : option nat :=
  querySelector modalTable this_modal sel.

(** [setupModalListeners]: the click listeners in the order they are
    added, each with the element it is added to. *)
Definition setupModalListeners : list (option nat * Lightbox.Call) :=
  let closeBtn := modal_querySelector [Attr "data-lightbox-close"] in
  let prevBtn := modal_querySelector [Attr "data-lightbox-prev"] in
  let nextBtn := modal_querySelector [Attr "data-lightbox-next"] in
  [ (closeBtn, Lightbox.CallClose);
    (modal_querySelector [Class "lightbox-overlay"], Lightbox.CallClose);
    (prevBtn, Lightbox.CallPrev);
    (nextBtn, Lightbox.CallNext) ].

(** The listeners a click on element [k] runs: those of [k], then those of
    each ancestor going up, each element's in the order they were added. *)
Definition listeners_on (k : nat) : list Lightbox.Call :=
  omap (λ '(target, handler),
          if bool_decide (target = Some k) then Some handler else None)
       setupModalListeners.

Definition click_path (k : nat) : list Lightbox.Call :=
  (k :: ancestors modalTable k) ≫= listeners_on.

Definition click_on (k : nat) (p : Page) : Page :=
  Lightbox.call_all (click_path k) p.

(** The element behind each control of the modal. *)
Definition control (t : Lightbox.Target) : option nat :=
  match t with
  | Lightbox.GalleryItem _ => None
  | Lightbox.Overlay => modal_querySelector [Class "lightbox-overlay"]
  | Lightbox.CloseButton => modal_querySelector [Class "lightbox-close"]
  | Lightbox.PrevButton => modal_querySelector [Class "lightbox-prev"]
  | Lightbox.NextButton => modal_querySelector [Class "lightbox-next"]
  end.

(** The elements [updateLightbox] looks up in the modal. *)
Definition updateLightbox_lookups : list (option nat) :=
  [ modal_querySelector [Class "lightbox-image"];
    modal_querySelector [Class "lightbox-caption"];
    modal_querySelector [Class "lightbox-counter"; Class "current"];
    modal_querySelector [Class "lightbox-counter"; Class "total"] ].

End Dom.

(** ** The mobile menu *)

Module MobileMenu.

Local Open Scope js_scope.

(** An [animationDelay] the class writes is the text of a product of
    doubles, [`${index * step}s`]; it is kept as the position and the
    step's literal, unevaluated. *)
Inductive Delay :=
| AsThePageHadIt
| Times (index : nat) (step : string).

(** The two style properties of a menu link that the class writes. *)
Record Link := {
  animation : string;
  animationDelay : Delay;
}.

(** The fields of a [MobileMenu] instance.  [hamburger] and [menu] are
    [None] when [querySelector] found nothing, and otherwise tell whether the
    element's class list holds [active]. *)
Record Instance := {
  hamburger : option bool;
  menu : option bool;
  menuLinks : list Link;
  isOpen : bool;
}.

(** The document: the lightbox with [body.style.overflow], and the menu. *)
Record Site := {
  lightbox : Page;
  this : Instance;
}.

Definition Method := JS.M Site unit.

Definition set_lightbox (p : Page) (s : Site) : Site :=
  {| lightbox := p; this := this s |}.

Definition set_this (m : Instance) (s : Site) : Site :=
  {| lightbox := lightbox s; this := m |}.

Definition set_isOpen (b : bool) (m : Instance) : Instance :=
  {| hamburger := hamburger m; menu := menu m; menuLinks := menuLinks m;
     isOpen := b |}.

Definition set_hamburger (h : option bool) (m : Instance) : Instance :=
  {| hamburger := h; menu := menu m; menuLinks := menuLinks m;
     isOpen := isOpen m |}.

Definition set_menu (h : option bool) (m : Instance) : Instance :=
  {| hamburger := hamburger m; menu := h; menuLinks := menuLinks m;
     isOpen := isOpen m |}.

Definition set_menuLinks (ls : list Link) (m : Instance) : Instance :=
  {| hamburger := hamburger m; menu := menu m; menuLinks := ls;
     isOpen := isOpen m |}.

(** [constructor]: [foundHamburger] and [foundMenu] are what the two
    [querySelector] calls found; a menu comes with the links inside it. *)
Definition constructor (foundHamburger : option bool)
    (foundMenu : option (bool * list Link)) : Instance :=
  {| hamburger := foundHamburger;
     menu := fst <$> foundMenu;
     menuLinks := match foundMenu with Some (_, links) => links | None => [] end;
     isOpen := false |}.

Inductive Direction :=
| In
| Out.

(** The [forEach] of [animateMenuItems] over the links *)
Definition slide (direction : Direction) (links : list Link) : list Link :=
  imap (λ index _,
    match direction with
    | In => {| animation := "slideInLeft 0.3s ease-out forwards";
               animationDelay := Times index "0.05" |}
    | Out => {| animation := "slideOutLeft 0.2s ease-in forwards";
                animationDelay := Times index "0.02" |}
    end) links.

Definition animateMenuItems (direction : Direction) : Method :=
  JS.modify (λ s,
    set_this (set_menuLinks (slide direction (menuLinks (this s))) (this s)) s).

(** [element.classList.add('active')] and [.remove('active')], on an
    element that may be [null] *)
Definition classList_active (element : Instance → option bool)
    (store : option bool → Instance → Instance) (b : bool) : Method :=
  s <- JS.get ;;
  _ <- JS.deref (element (this s)) ;;
  JS.modify (λ s, set_this (store (Some b) (this s)) s).

Definition open : Method :=
  JS.modify (λ s, set_this (set_isOpen true (this s)) s) ;;
  classList_active hamburger set_hamburger true ;;
  classList_active menu set_menu true ;;
  JS.modify (λ s, set_lightbox (set_body_overflow "hidden" (lightbox s)) s) ;;
  animateMenuItems In.

Definition close : Method :=
  JS.modify (λ s, set_this (set_isOpen false (this s)) s) ;;
  classList_active hamburger set_hamburger false ;;
  classList_active menu set_menu false ;;
  JS.modify (λ s, set_lightbox (set_body_overflow "" (lightbox s)) s) ;;
  animateMenuItems Out.

Definition toggle : Method :=
  s <- JS.get ;;
  if isOpen (this s) then close else open.

(** The site after [open] and after [close] have run to their end. *)
Definition opened (s : Site) : Site :=
  {| lightbox := set_body_overflow "hidden" (lightbox s);
     this := {| hamburger := Some true; menu := Some true;
                menuLinks := slide In (menuLinks (this s)); isOpen := true |} |}.

Definition shut (s : Site) : Site :=
  {| lightbox := set_body_overflow "" (lightbox s);
     this := {| hamburger := Some false; menu := Some false;
                menuLinks := slide Out (menuLinks (this s)); isOpen := false |} |}.

(** The page's overflow is [hidden] exactly while the menu is open. *)
Definition balanced (s : Site) : Prop :=
  body_overflow (lightbox s) = if isOpen (this s) then "hidden" else "".

(** Both elements were found, and their [active] class says what
    [isOpen] says. *)
Definition in_step (m : Instance) : Prop :=
  hamburger m = Some (isOpen m) ∧ menu m = Some (isOpen m).

End MobileMenu.

(** ** The listeners of both classes on one document *)

Module Site.

Import MobileMenu.

(** What the host can deliver.  [outside] says that the click's target has
    neither the menu nor the hamburger as itself or as an ancestor, which is
    what the two [closest] calls of the document listener ask.  The elements
    that carry listeners are taken not to be nested in one another. *)
Inductive Event :=
| HamburgerClick
| MenuLinkClick (position : nat)
| LightboxClick (target : Lightbox.Target) (outside : bool)
| OtherClick (outside : bool)
| KeyDown (key : string)
| Resize (innerWidth : Z).

Definition listener (m : Method) (s : Site) : Site := JS.store (m s).

(** The menu's click listener on the document *)
Definition onDocumentClick (outside : bool) (s : Site) : Site :=
  if isOpen (this s) && outside then listener close s else s.

Definition onResize (innerWidth : Z) (s : Site) : Site :=
  if bool_decide (768 < innerWidth) && isOpen (this s)
  then listener close s else s.

(** A click runs the listeners of its target first and those of the
    document after. *)
Definition dispatch (e : Event) (s : Site) : Site :=
  match e with
  | HamburgerClick =>
      match hamburger (this s) with
      | Some _ => listener toggle s
      | None => s
      end
  | MenuLinkClick position =>
      if decide (position < List.length (menuLinks (this s)))%nat
      then listener close s
      else s
  | LightboxClick target outside =>
      onDocumentClick outside
        (set_lightbox (Lightbox.dispatch (Lightbox.Click target) (lightbox s)) s)
  | OtherClick outside => onDocumentClick outside s
  | KeyDown key =>
      set_lightbox (Lightbox.dispatch (Lightbox.KeyDown key) (lightbox s)) s
  | Resize innerWidth => onResize innerWidth s
  end.

Definition dispatch_all (es : list Event) (s : Site) : Site :=
  foldl (λ q e, dispatch e q) s es.

(** The events that reach no listener of the lightbox *)
Definition menu_only (e : Event) : bool :=
  match e with
  | LightboxClick _ _ | KeyDown _ => false
  | _ => true
  end.

End Site.

(** A site with the three-item gallery and a two-link menu. *)
Definition site3 : MobileMenu.Site :=
  {| MobileMenu.lightbox := page3;
     MobileMenu.this :=
       MobileMenu.constructor (Some false)
         (Some (false,
                [ {| MobileMenu.animation := "";
                     MobileMenu.animationDelay := MobileMenu.AsThePageHadIt |};
                  {| MobileMenu.animation := "";
                     MobileMenu.animationDelay := MobileMenu.AsThePageHadIt |} ])) |}.


(** ** Utilities: [debounce] and [throttle]

    The host's timers are a table from timer ids to the closures waiting to
    run; [setTimeout] adds an entry under a fresh id, [clearTimeout] drops
    one, and the host runs an entry some time after its delay, which removes
    it.  When that happens is left to the sequence of steps; [func] is
    known by the arguments it is called with, in order.  For [debounce],
    where nothing follows the call of [func], that is all there is to know of
    it; for [throttle], whose wrapper goes on after [func], a call also says
    how [func] ends and which calls of the wrapper it makes while it runs. *)

Module Utilities.

Definition clearTimeout {T} (id : option nat) (timers : gmap nat T)
    : gmap nat T :=
  match id with
  | Some i => delete i timers
  | None => timers
  end.

(** What the host and the page's code can do to a wrapped function: call
    it, or let the timer [id] run if it is waiting. *)
Inductive Step (A : Type) :=
| Invoke (args : A)
| Elapse (id : nat).
Global Arguments Invoke {A} args.
Global Arguments Elapse {A} id.

Definition invoked {A} (steps : list (Step A)) : list A :=
  omap (λ s, match s with Invoke args => Some args | Elapse _ => None end) steps.

Definition elapsed {A} (steps : list (Step A)) : list nat :=
  omap (λ s, match s with Elapse id => Some id | Invoke _ => None end) steps.

(** *** [debounce] *)

(** The closure of one [debounce(func, wait)]: the waiting [later]
    closures by timer id, each with the [args] it captured; the host's next
    timer id; the variable [timeout]; and the calls of [func] so far. *)
Record Debounced (A : Type) := {
  later : gmap nat A;
  next_id : nat;
  timeout : option nat;
  func_calls : list A;
}.
Global Arguments later {A} _.
Global Arguments next_id {A} _.
Global Arguments timeout {A} _.
Global Arguments func_calls {A} _.

Definition debounce {A} (first_id : nat) : Debounced A :=
  {| later := ∅; next_id := first_id; timeout := None; func_calls := [] |}.

Definition executedFunction {A} (args : A) (d : Debounced A) : Debounced A :=
  {| later := <[next_id d := args]> (clearTimeout (timeout d) (later d));
     next_id := S (next_id d);
     timeout := Some (next_id d);
     func_calls := func_calls d |}.

(** The host runs timer [id]: the entry leaves the table and [later]
    runs, clearing [timeout] and calling [func] with the captured [args]. *)
Definition run_later {A} (id : nat) (d : Debounced A) : Debounced A :=
  match later d !! id with
  | Some args =>
      {| later := clearTimeout (timeout d) (delete id (later d));
         next_id := next_id d;
         timeout := timeout d;
         func_calls := func_calls d ++ [args] |}
  | None => d
  end.

Definition debounce_step {A} (s : Step A) (d : Debounced A) : Debounced A :=
  match s with
  | Invoke args => executedFunction args d
  | Elapse id => run_later id d
  end.

Definition debounce_run {A} (steps : list (Step A)) (d : Debounced A)
    : Debounced A :=
  foldl (λ q s, debounce_step s q) d steps.

(** *** [throttle] *)

(** The closure of one [throttle(func, limit)]: the waiting reset timers,
    the host's next timer id, the variable [inThrottle] ([undefined] counts
    as false), and the calls of [func] so far. *)
Record Throttled (A : Type) := {
  resets : gset nat;
  next_reset : nat;
  inThrottle : bool;
  passed : list A;
}.
Global Arguments resets {A} _.
Global Arguments next_reset {A} _.
Global Arguments inThrottle {A} _.
Global Arguments passed {A} _.

Definition throttle {A} (first_id : nat) : Throttled A :=
  {| resets := ∅; next_reset := first_id; inThrottle := false; passed := [] |}.

Inductive Outcome :=
| Returns
| Throws.

(** A call of the wrapper with [args].  Should it reach [func], [func]
    calls the wrapper again as [during] says while it runs, and ends as
    [outcome] says. *)
#[warnings="-register-all"] Inductive Call (A : Type) :=
| Call_with (args : A) (during : list (Call A)) (outcome : Outcome).
Global Arguments Call_with {A} args during outcome.

(** The returned function: [func.apply] comes first, and only when it has
    returned are [inThrottle] set and the reset timer started. *)
Fixpoint throttled {A} (c : Call A) (t : Throttled A) : Throttled A :=
  match c with
  | Call_with args during outcome =>
      if inThrottle t then t
      else
        let applied :=
          (fix each (cs : list (Call A)) (t : Throttled A) : Throttled A :=
             match cs with
             | [] => t
             | c' :: cs' => each cs' (throttled c' t)
             end)
            during
            {| resets := resets t; next_reset := next_reset t;
               inThrottle := inThrottle t; passed := passed t ++ [args] |} in
        match outcome with
        | Throws => applied
        | Returns =>
            {| resets := {[next_reset applied]} ∪ resets applied;
               next_reset := S (next_reset applied);
               inThrottle := true;
               passed := passed applied |}
        end
  end.

Definition run_reset {A} (id : nat) (t : Throttled A) : Throttled A :=
  if decide (id ∈ resets t)
  then {| resets := resets t ∖ {[id]};
          next_reset := next_reset t;
          inThrottle := false;
          passed := passed t |}
  else t.

(** What can happen to a throttled function: a call from outside, or the
    reset timer [id] running if it is waiting. *)
Inductive Throttle_step (A : Type) :=
| Calls (c : Call A)
| Fires (id : nat).
Global Arguments Calls {A} c.
Global Arguments Fires {A} id.

Definition throttle_step {A} (s : Throttle_step A) (t : Throttled A)
    : Throttled A :=
  match s with
  | Calls c => throttled c t
  | Fires id => run_reset id t
  end.

Definition throttle_run {A} (steps : list (Throttle_step A)) (t : Throttled A)
    : Throttled A :=
  foldl (λ q s, throttle_step s q) t steps.

(** The arguments of a call and of the calls [func] would make during it,
    in the order the calls begin; and those of a sequence of steps. *)
Fixpoint arguments_of {A} (c : Call A) : list A :=
  match c with
  | Call_with args during _ =>
      args ::
      (fix each (cs : list (Call A)) : list A :=
         match cs with
         | [] => []
         | c' :: cs' => arguments_of c' ++ each cs'
         end) during
  end.

Definition requested {A} (steps : list (Throttle_step A)) : list A :=
  steps ≫= λ s, match s with Calls c => arguments_of c | Fires _ => [] end.

Definition fired {A} (steps : list (Throttle_step A)) : list nat :=
  omap (λ s, match s with Fires id => Some id | Calls _ => None end) steps.

(** [func] returns normally and leaves its wrapper alone. *)
Definition plain {A} (c : Call A) : bool :=
  match c with
  | Call_with _ [] Returns => true
  | _ => false
  end.

Definition plain_step {A} (s : Throttle_step A) : bool :=
  match s with
  | Calls c => plain c
  | Fires _ => true
  end.

(** *** What holds between a wrapped function and the steps so far *)

(** Either no timer waits, or exactly the one named by [timeout] does and
    it holds the arguments of the latest call; [func] was called with some
    of the earlier arguments, in the order they came. *)
Definition debounce_inv {A} (steps : list (Step A)) (d : Debounced A) : Prop :=
  ((later d = ∅ ∧ func_calls d `sublist_of` invoked steps) ∨
   (∃ id a earlier,
      later d = {[id := a]} ∧ timeout d = Some id ∧
      invoked steps = earlier ++ [a] ∧ func_calls d `sublist_of` earlier)) ∧
  (List.length (func_calls d) ≤ List.length (elapsed steps))%nat.

(** While [inThrottle] is set, a reset timer waits that will unset it. *)
Definition release_pending {A} (t : Throttled A) : Prop :=
  inThrottle t = true → ∃ id, id ∈ resets t.

(** When [func] always returns and never calls its wrapper: a reset timer
    waits exactly while [inThrottle] is set, and [func] was called at most
    once more often than a timer has run. *)
Definition throttle_inv {A} (steps : list (Throttle_step A)) (t : Throttled A)
    : Prop :=
  (List.length (passed t) + (if inThrottle t then 0 else 1)
     ≤ List.length (fired steps) + 1)%nat ∧
  ((inThrottle t = false ∧ resets t = ∅) ∨
   (inThrottle t = true ∧ ∃ id, resets t = {[id]})).

End Utilities.

(** ** What each method does to the page *)

Section Equations.

Import Lightbox.

Lemma updateLightbox_eq (p : Page) :
  updateLightbox p =
  match JS.index (items p) (currentIndex p) with
  | Some item =>
      (JS.Normal tt,
       set_modal (render item (currentIndex p) (JS.length (items p)) (modal p)) p)
  | None => (JS.Throw JS.TypeError, p)
  end.
Proof.
  unfold updateLightbox, JS.bind, JS.get, JS.deref.
  destruct (JS.index (items p) (currentIndex p)); reflexivity.
Qed.

Lemma open_eq (index : JS.Number) (p : Page) :
  open index p =
  match JS.index (items p) index with
  | Some item =>
      (JS.Normal tt,
       set_body_overflow "hidden"
         (set_modal
            (set_active true (render item index (JS.length (items p)) (modal p)))
            (set_currentIndex index p)))
  | None => (JS.Throw JS.TypeError, set_currentIndex index p)
  end.
Proof.
  unfold open, JS.bind at 1 2. cbn [JS.modify].
  rewrite updateLightbox_eq. cbn [items currentIndex set_currentIndex modal].
  destruct (JS.index (items p) index); reflexivity.
Qed.

Lemma close_eq (p : Page) :
  close p =
  (JS.Normal tt, set_body_overflow "" (set_modal (set_active false (modal p)) p)).
Proof. reflexivity. Qed.

Lemma next_eq (p : Page) : next p = moved_to (next_index p) p.
Proof.
  unfold next, moved_to, JS.bind at 1 2. cbn [JS.get JS.modify].
  rewrite updateLightbox_eq. cbn [items currentIndex set_currentIndex modal].
  fold (next_index p). destruct (JS.index (items p) (next_index p)); reflexivity.
Qed.

Lemma prev_eq (p : Page) : prev p = moved_to (prev_index p) p.
Proof.
  unfold prev, moved_to, JS.bind at 1 2. cbn [JS.get JS.modify].
  rewrite updateLightbox_eq. cbn [items currentIndex set_currentIndex modal].
  fold (prev_index p). destruct (JS.index (items p) (prev_index p)); reflexivity.
Qed.

End Equations.

(** ** Frame and range lemmas *)

Section Frames.

Import Lightbox.

Lemma index_in_range {A} (l : list A) (c : Z) :
  0 ≤ c < Z.of_nat (List.length l) → is_Some (JS.index l (JS.Int c)).
Proof.
  intros Hc. unfold JS.index. case_decide; [|lia].
  apply lookup_lt_is_Some. lia.
Qed.

Lemma index_out_of_range {A} (l : list A) (c : Z) :
  ¬ (0 ≤ c < Z.of_nat (List.length l)) → JS.index l (JS.Int c) = None.
Proof.
  intros Hc. unfold JS.index. case_decide; [|reflexivity].
  apply lookup_ge_None. lia.
Qed.

Lemma moved_to_currentIndex k p : currentIndex (JS.store (moved_to k p)) = k.
Proof. unfold moved_to. destruct (JS.index (items p) k); reflexivity. Qed.

Lemma moved_to_items k p : items (JS.store (moved_to k p)) = items p.
Proof. unfold moved_to. destruct (JS.index (items p) k); reflexivity. Qed.

Lemma moved_to_overflow k p :
  body_overflow (JS.store (moved_to k p)) = body_overflow p.
Proof. unfold moved_to. destruct (JS.index (items p) k); reflexivity. Qed.

Lemma moved_to_isOpen k p : isOpen (JS.store (moved_to k p)) = isOpen p.
Proof. unfold moved_to. destruct (JS.index (items p) k); reflexivity. Qed.

Lemma moved_to_normal c p :
  0 ≤ c < itemCount p → JS.completion (moved_to (JS.Int c) p) = JS.Normal tt.
Proof.
  intros Hc. unfold moved_to.
  destruct (index_in_range (items p) c Hc) as [item ->]. reflexivity.
Qed.

Lemma next_index_in_range p c :
  currentIndex p = JS.Int c → 0 ≤ c < itemCount p →
  next_index p = JS.Int ((c + 1) mod itemCount p).
Proof.
  intros Hci Hc. unfold next_index, JS.length. rewrite Hci. cbn [JS.add JS.rem].
  fold (itemCount p). case_decide; [lia|].
  rewrite Z.rem_mod_nonneg by lia. reflexivity.
Qed.

Lemma prev_index_in_range p c :
  currentIndex p = JS.Int c → 0 ≤ c < itemCount p →
  prev_index p = JS.Int ((c - 1 + itemCount p) mod itemCount p).
Proof.
  intros Hci Hc. unfold prev_index, JS.length. rewrite Hci.
  cbn [JS.add JS.sub JS.rem].
  fold (itemCount p). case_decide; [lia|].
  rewrite Z.rem_mod_nonneg by lia. reflexivity.
Qed.

Lemma itemCount_moved_to k p : itemCount (JS.store (moved_to k p)) = itemCount p.
Proof. unfold itemCount. rewrite moved_to_items. reflexivity. Qed.

Lemma next_in_range p : in_range p → in_range (JS.store (next p)).
Proof.
  unfold in_range at 1. destruct (currentIndex p) as [c|] eqn:Hci; [|tauto].
  intros Hc. rewrite next_eq. unfold in_range.
  rewrite moved_to_currentIndex, itemCount_moved_to,
    (next_index_in_range p c Hci Hc).
  apply Z.mod_pos_bound. lia.
Qed.

Lemma prev_in_range p : in_range p → in_range (JS.store (prev p)).
Proof.
  unfold in_range at 1. destruct (currentIndex p) as [c|] eqn:Hci; [|tauto].
  intros Hc. rewrite prev_eq. unfold in_range.
  rewrite moved_to_currentIndex, itemCount_moved_to,
    (prev_index_in_range p c Hci Hc).
  apply Z.mod_pos_bound. lia.
Qed.

Lemma close_in_range p : in_range p → in_range (JS.store (close p)).
Proof. intros H. exact H. Qed.

Lemma open_currentIndex index p :
  currentIndex (JS.store (open index p)) = index.
Proof. rewrite open_eq. destruct (JS.index (items p) index); reflexivity. Qed.

Lemma open_items index p : items (JS.store (open index p)) = items p.
Proof. rewrite open_eq. destruct (JS.index (items p) index); reflexivity. Qed.

Lemma open_in_range i p :
  0 ≤ i < itemCount p → in_range (JS.store (open (JS.Int i) p)).
Proof.
  intros Hi. unfold in_range, itemCount.
  rewrite open_currentIndex, open_items. exact Hi.
Qed.

Lemma onKeyDown_cases (key : string) (p : Page) :
  listener (onKeyDown key) p = p ∨
  listener (onKeyDown key) p = listener prev p ∨
  listener (onKeyDown key) p = listener next p ∨
  listener (onKeyDown key) p = listener close p.
Proof.
  unfold listener, onKeyDown, JS.bind. cbn [JS.get].
  destruct (negb (isOpen p)); [by left|].
  destruct (String.eqb key "ArrowLeft"); [by right; left|].
  destruct (String.eqb key "ArrowRight"); [by right; right; left|].
  destruct (String.eqb key "Escape"); [by right; right; right|].
  by left.
Qed.

End Frames.

(** ** Wrap-around arithmetic *)

Section Wrap.

Variables n c : Z.
Hypothesis Hc : 0 ≤ c < n.

Lemma wrap_succ_pred : ((c + 1) mod n - 1 + n) mod n = c.
Proof.
  destruct (decide (c + 1 = n)) as [Heq|Hne].
  - rewrite Heq, Z_mod_same_full, Z.mod_small by lia. lia.
  - rewrite (Z.mod_small (c + 1) n) by lia.
    replace (c + 1 - 1 + n) with (c + 1 * n) by lia.
    rewrite Z_mod_plus_full. apply Z.mod_small. lia.
Qed.

Lemma wrap_pred_succ : ((c - 1 + n) mod n + 1) mod n = c.
Proof.
  destruct (decide (c = 0)) as [Heq|Hne].
  - rewrite (Z.mod_small (c - 1 + n) n) by lia.
    replace (c - 1 + n + 1) with n by lia.
    rewrite Z_mod_same_full. lia.
  - replace (c - 1 + n) with (c - 1 + 1 * n) by lia.
    rewrite Z_mod_plus_full, (Z.mod_small (c - 1) n) by lia.
    replace (c - 1 + 1) with c by lia. apply Z.mod_small. lia.
Qed.

Lemma wrap_full_turn : (c + n) mod n = c.
Proof.
  replace (c + n) with (c + 1 * n) by lia.
  rewrite Z_mod_plus_full. apply Z.mod_small. lia.
Qed.

End Wrap.

(** ** Paging *)

Section Paging.

Import Lightbox.

(** C2. With at least one item and [currentIndex] in range, [next] stores
    [(currentIndex + 1) mod itemCount] and [prev] stores
    [(currentIndex - 1 + itemCount) mod itemCount]; both return normally. *)
Theorem next_prev_wrap_around (p : Page) (c : Z) :
  0 < itemCount p → currentIndex p = JS.Int c → 0 ≤ c < itemCount p →
  (JS.completion (next p) = JS.Normal tt ∧
   currentIndex (JS.store (next p)) = JS.Int ((c + 1) mod itemCount p)) ∧
  (JS.completion (prev p) = JS.Normal tt ∧
   currentIndex (JS.store (prev p)) =
     JS.Int ((c - 1 + itemCount p) mod itemCount p)).
Proof.
  intros Hn Hci Hc. rewrite next_eq, prev_eq, !moved_to_currentIndex.
  rewrite (next_index_in_range p c Hci Hc), (prev_index_in_range p c Hci Hc).
  repeat split; try reflexivity;
    apply moved_to_normal, Z.mod_pos_bound; lia.
Qed.

Lemma next_prev_wrap_around_witness :
  (JS.completion (next showing_last) = JS.Normal tt ∧
   currentIndex (JS.store (next showing_last)) = JS.Int 0) ∧
  (JS.completion (prev showing_last) = JS.Normal tt ∧
   currentIndex (JS.store (prev showing_last)) = JS.Int 1).
Proof.
  apply (next_prev_wrap_around showing_last 2).
  - vm_compute. reflexivity.
  - vm_compute. reflexivity.
  - vm_compute. split; [discriminate | reflexivity].
Defined.

(** C5. With at least one item and [currentIndex] in range, [next] followed
    by [prev] restores [currentIndex], and so does [prev] followed by
    [next]. *)
Theorem next_prev_inverse (p : Page) (c : Z) :
  0 < itemCount p → currentIndex p = JS.Int c → 0 ≤ c < itemCount p →
  currentIndex (JS.store (prev (JS.store (next p)))) = currentIndex p ∧
  currentIndex (JS.store (next (JS.store (prev p)))) = currentIndex p.
Proof.
  intros Hn Hci Hc.
  assert (Hnext : currentIndex (JS.store (next p))
                  = JS.Int ((c + 1) mod itemCount p)).
  { rewrite next_eq, moved_to_currentIndex. by apply next_index_in_range. }
  assert (Hprev : currentIndex (JS.store (prev p))
                  = JS.Int ((c - 1 + itemCount p) mod itemCount p)).
  { rewrite prev_eq, moved_to_currentIndex. by apply prev_index_in_range. }
  assert (Hcn : itemCount (JS.store (next p)) = itemCount p).
  { rewrite next_eq. apply itemCount_moved_to. }
  assert (Hcp : itemCount (JS.store (prev p)) = itemCount p).
  { rewrite prev_eq. apply itemCount_moved_to. }
  split.
  - rewrite prev_eq, moved_to_currentIndex.
    rewrite (prev_index_in_range _ _ Hnext), Hcn, Hci.
    + f_equal. by apply wrap_succ_pred.
    + rewrite Hcn. apply Z.mod_pos_bound. lia.
  - rewrite next_eq, moved_to_currentIndex.
    rewrite (next_index_in_range _ _ Hprev), Hcp, Hci.
    + f_equal. by apply wrap_pred_succ.
    + rewrite Hcp. apply Z.mod_pos_bound. lia.
Qed.

Lemma next_prev_inverse_witness :
  currentIndex (JS.store (prev (JS.store (next showing_last)))) = JS.Int 2 ∧
  currentIndex (JS.store (next (JS.store (prev showing_last)))) = JS.Int 2.
Proof.
  apply (next_prev_inverse showing_last 2).
  - vm_compute. reflexivity.
  - vm_compute. reflexivity.
  - vm_compute. split; [discriminate | reflexivity].
Defined.

Lemma times_next_currentIndex (k : nat) :
  ∀ (p : Page) (c : Z),
    currentIndex p = JS.Int c → 0 ≤ c < itemCount p →
    currentIndex (times k next p) = JS.Int ((c + Z.of_nat k) mod itemCount p).
Proof.
  induction k as [|k IH]; intros p c Hci Hc.
  - cbn [times]. rewrite Z.add_0_r, Z.mod_small by lia. exact Hci.
  - cbn [times]. unfold listener.
    assert (Hnext : currentIndex (JS.store (next p))
                    = JS.Int ((c + 1) mod itemCount p)).
    { rewrite next_eq, moved_to_currentIndex. by apply next_index_in_range. }
    assert (Hcn : itemCount (JS.store (next p)) = itemCount p).
    { rewrite next_eq. apply itemCount_moved_to. }
    rewrite (IH _ _ Hnext), Hcn.
    + f_equal. rewrite Z.add_mod_idemp_l by lia. f_equal. lia.
    + rewrite Hcn. apply Z.mod_pos_bound. lia.
Qed.

(** C6. With at least one item and [currentIndex] in range, [itemCount]
    calls of [next] in a row bring [currentIndex] back to where it was. *)
Theorem next_full_cycle (p : Page) (c : Z) :
  0 < itemCount p → currentIndex p = JS.Int c → 0 ≤ c < itemCount p →
  currentIndex (times (List.length (items p)) next p) = currentIndex p.
Proof.
  intros Hn Hci Hc. rewrite (times_next_currentIndex _ p c Hci Hc).
  fold (itemCount p). rewrite Hci. f_equal. by apply wrap_full_turn.
Qed.

Lemma next_full_cycle_witness :
  currentIndex (times 3 next showing_last) = JS.Int 2.
Proof.
  apply (next_full_cycle showing_last 2).
  - vm_compute. reflexivity.
  - vm_compute. reflexivity.
  - vm_compute. split; [discriminate | reflexivity].
Defined.

End Paging.

(** ** Opening *)

Section Opening.

Import Lightbox.

(** C3. [open(i)] with [0 <= i < itemCount] returns normally, stores [i]
    in [currentIndex], makes the modal active, and the counter shows
    [i + 1] and [itemCount] in decimal. *)
Theorem open_valid_index (p : Page) (i : Z) :
  0 ≤ i < itemCount p →
  JS.completion (open (JS.Int i) p) = JS.Normal tt ∧
  currentIndex (JS.store (open (JS.Int i) p)) = JS.Int i ∧
  isOpen (JS.store (open (JS.Int i) p)) = true ∧
  current_textContent (modal (JS.store (open (JS.Int i) p))) = pretty (i + 1) ∧
  total_textContent (modal (JS.store (open (JS.Int i) p))) = pretty (itemCount p).
Proof.
  intros Hi. rewrite open_eq.
  destruct (index_in_range (items p) i Hi) as [item ->].
  repeat split.
Qed.

Lemma open_valid_index_witness :
  JS.completion (open (JS.Int 1) page3) = JS.Normal tt ∧
  currentIndex (JS.store (open (JS.Int 1) page3)) = JS.Int 1 ∧
  isOpen (JS.store (open (JS.Int 1) page3)) = true ∧
  current_textContent (modal (JS.store (open (JS.Int 1) page3))) = "2" ∧
  total_textContent (modal (JS.store (open (JS.Int 1) page3))) = "3".
Proof.
  apply (open_valid_index page3 1).
  vm_compute. split; [discriminate | reflexivity].
Defined.

(** Without validation, an index outside the gallery is stored and the
    render then fails on the missing item, before the modal is touched. *)
Lemma open_missing_item (index : JS.Number) (p : Page) :
  JS.index (items p) index = None →
  open index p = (JS.Throw JS.TypeError, set_currentIndex index p).
Proof. intros H. rewrite open_eq, H. reflexivity. Qed.

(** C8, as the code has it. [open(index)] with [index] outside
    [0 <= index < itemCount], or [NaN], checks nothing: it stores [index]
    in [currentIndex] as given, neither clamped nor wrapped, and the
    render raises a [TypeError] on the missing item; the modal, [isOpen]
    and the scroll lock stay as they were. *)
Theorem open_out_of_range_unchecked (p : Page) (i : Z) :
  ¬ (0 ≤ i < itemCount p) →
  open (JS.Int i) p = (JS.Throw JS.TypeError, set_currentIndex (JS.Int i) p) ∧
  open JS.NaN p = (JS.Throw JS.TypeError, set_currentIndex JS.NaN p).
Proof.
  intros Hi. split; apply open_missing_item.
  - by apply index_out_of_range.
  - reflexivity.
Qed.

Lemma open_out_of_range_unchecked_witness :
  open (JS.Int (-1)) page3
    = (JS.Throw JS.TypeError, set_currentIndex (JS.Int (-1)) page3) ∧
  open JS.NaN page3 = (JS.Throw JS.TypeError, set_currentIndex JS.NaN page3).
Proof.
  apply (open_out_of_range_unchecked page3 (-1)).
  vm_compute. intros [H _]. apply H. reflexivity.
Defined.

(** C8, as claimed, fails on a three-item gallery at index 5: the call
    is not rejected with a range error; it ends in a [TypeError] with 5
    left in [currentIndex]. *)
Lemma open_out_of_range_counterexample :
  ¬ (0 ≤ 5 < itemCount page3) ∧
  JS.completion (open (JS.Int 5) page3) ≠ JS.Throw JS.RangeError ∧
  JS.completion (open (JS.Int 5) page3) = JS.Throw JS.TypeError ∧
  currentIndex (JS.store (open (JS.Int 5) page3)) = JS.Int 5 ∧
  JS.store (open (JS.Int 5) page3) ≠ page3.
Proof.
  split; [vm_compute; intros [_ H]; discriminate H|].
  split; [vm_compute; discriminate|].
  split; [vm_compute; reflexivity|].
  split; [vm_compute; reflexivity|].
  intros H. apply (f_equal currentIndex) in H. vm_compute in H. discriminate H.
Qed.

End Opening.

(** ** The empty gallery *)

Section Empty.

Import Lightbox.

(** C1, at the page without a gallery. [next] and [prev] are not guarded:
    [% 0] yields [NaN], which is stored in [currentIndex], and the render
    raises a [TypeError] on the missing item. *)
Theorem next_prev_empty_gallery :
  itemCount page0 = 0 ∧
  currentIndex page0 = JS.Int 0 ∧
  next page0 = (JS.Throw JS.TypeError, set_currentIndex JS.NaN page0) ∧
  prev page0 = (JS.Throw JS.TypeError, set_currentIndex JS.NaN page0).
Proof. repeat split. Qed.

(** The same from any page without items, whatever [currentIndex] holds. *)
Lemma next_prev_no_items (p : Page) :
  items p = [] →
  next p = (JS.Throw JS.TypeError, set_currentIndex JS.NaN p) ∧
  prev p = (JS.Throw JS.TypeError, set_currentIndex JS.NaN p).
Proof.
  intros H. rewrite next_eq, prev_eq.
  unfold moved_to, next_index, prev_index, JS.length. rewrite H.
  destruct (currentIndex p); split; reflexivity.
Qed.

End Empty.

(** ** Closing *)

Section Closing.

Import Lightbox.

Lemma close_closed (p : Page) : closed p → close p = (JS.Normal tt, p).
Proof.
  destruct p as [its [act ? ? ? ? ? ?] ci ov]. unfold closed, isOpen.
  cbn. intros [-> ->]. reflexivity.
Qed.

Lemma call_lock_balanced (c : Call) (p : Page) :
  lock_balanced p → lock_balanced (listener (call c) p).
Proof.
  unfold lock_balanced, listener. intros H. destruct c as [index| | |]; cbn [call].
  - rewrite open_eq. destruct (JS.index (items p) index); [reflexivity | exact H].
  - reflexivity.
  - rewrite next_eq, moved_to_overflow, moved_to_isOpen. exact H.
  - rewrite prev_eq, moved_to_overflow, moved_to_isOpen. exact H.
Qed.

Lemma call_all_lock_balanced (cs : list Call) :
  ∀ p, lock_balanced p → lock_balanced (call_all cs p).
Proof.
  unfold call_all. induction cs as [|c cs IH]; intros p H; [exact H|].
  cbn [foldl]. apply IH, call_lock_balanced, H.
Qed.

Lemma call_lock_agrees (c : Call) (p : Page) :
  scroll_locked p = isOpen p →
  scroll_locked (listener (call c) p) = isOpen (listener (call c) p).
Proof.
  unfold scroll_locked, listener. intros H. destruct c as [index| | |]; cbn [call].
  - rewrite open_eq. destruct (JS.index (items p) index); [reflexivity | exact H].
  - reflexivity.
  - rewrite next_eq, moved_to_overflow, moved_to_isOpen. exact H.
  - rewrite prev_eq, moved_to_overflow, moved_to_isOpen. exact H.
Qed.

Lemma dispatch_lock_agrees (e : Event) (p : Page) :
  scroll_locked p = isOpen p →
  scroll_locked (dispatch e p) = isOpen (dispatch e p).
Proof.
  intros H. destruct e as [[position| | | |]|key]; cbn [dispatch].
  - case_decide; [|exact H]. apply (call_lock_agrees (CallOpen _) p H).
  - reflexivity.
  - exact H.
  - apply (call_lock_agrees CallPrev p H).
  - apply (call_lock_agrees CallNext p H).
  - destruct (onKeyDown_cases key p) as [-> | [-> | [-> | ->]]];
      [exact H | apply (call_lock_agrees CallPrev p H)
       | apply (call_lock_agrees CallNext p H) | reflexivity].
Qed.

(** C7, as the code has it. [close] never throws and leaves the modal
    inactive and the overflow empty; a second [close] right after gives the
    very same completion and page as the first.  While the modal is inactive
    [close] changes nothing but the overflow, which it empties whatever it
    held: it leaves the page as it is exactly when the overflow is empty
    already. *)
Theorem close_idempotent (p : Page) :
  (JS.completion (close p) = JS.Normal tt ∧
   isOpen (JS.store (close p)) = false ∧
   scroll_locked (JS.store (close p)) = false ∧
   body_overflow (JS.store (close p)) = "") ∧
  close (JS.store (close p)) = close p ∧
  (isOpen p = false →
   close p = (JS.Normal tt, set_body_overflow "" p) ∧
   (close p = (JS.Normal tt, p) ↔ body_overflow p = "")).
Proof.
  split; [repeat split|]. split; [reflexivity|]. intros Hclosed.
  assert (Heq : close p = (JS.Normal tt, set_body_overflow "" p)).
  { rewrite close_eq. destruct p as [its [act ? ? ? ? ? ?] ci ov].
    unfold isOpen in Hclosed. cbn in Hclosed. by subst. }
  split; [exact Heq|]. split.
  - intros H. rewrite Heq in H. injection H as H.
    apply (f_equal body_overflow) in H. by rewrite <- H.
  - intros H. by apply close_closed.
Qed.

Lemma close_idempotent_witness :
  close (constructor (Some gallery3) "scroll") = (JS.Normal tt, page3) ∧
  (close page3 = (JS.Normal tt, page3) ↔ body_overflow page3 = "").
Proof.
  split.
  - apply (close_idempotent (constructor (Some gallery3) "scroll")). reflexivity.
  - apply (close_idempotent page3). reflexivity.
Defined.

(** C7, as claimed, fails on a lightbox that was never opened, on a page
    whose body carries [overflow: scroll]: the modal is inactive and no lock
    is held, yet [close] is no no-op there, it empties the overflow. *)
Lemma close_while_closed_counterexample :
  isOpen (constructor (Some gallery3) "scroll") = false ∧
  scroll_locked (constructor (Some gallery3) "scroll") = false ∧
  JS.completion (close (constructor (Some gallery3) "scroll")) = JS.Normal tt ∧
  JS.store (close (constructor (Some gallery3) "scroll"))
    ≠ constructor (Some gallery3) "scroll" ∧
  body_overflow (JS.store (close (constructor (Some gallery3) "scroll"))) = "".
Proof.
  repeat split. intros H. apply (f_equal body_overflow) in H. discriminate H.
Qed.

(** C10. [close] leaves [currentIndex] and the items as they were, so
    [next] and [prev] called after it store the index they would have
    stored before it. *)
Theorem close_keeps_currentIndex (p : Page) :
  currentIndex (JS.store (close p)) = currentIndex p ∧
  items (JS.store (close p)) = items p ∧
  currentIndex (JS.store (next (JS.store (close p))))
    = currentIndex (JS.store (next p)) ∧
  currentIndex (JS.store (prev (JS.store (close p))))
    = currentIndex (JS.store (prev p)).
Proof.
  split; [reflexivity|]. split; [reflexivity|].
  rewrite !next_eq, !prev_eq, !moved_to_currentIndex. split; reflexivity.
Qed.

(** C9. [open] with a valid index takes the scroll lock and activates the
    modal; [close] frees the lock and deactivates the modal; and from a
    page where lock and [isOpen] agree, they agree after every sequence of
    [open], [close], [next] and [prev] calls, whatever their arguments
    and whether or not they throw, and after every sequence of events. *)
Theorem scroll_lock_follows_isOpen (p : Page) (cs : list Call) :
  scroll_locked p = isOpen p →
  (∀ i, 0 ≤ i < itemCount p →
     scroll_locked (JS.store (open (JS.Int i) p)) = true ∧
     isOpen (JS.store (open (JS.Int i) p)) = true) ∧
  (scroll_locked (JS.store (close p)) = false ∧
   isOpen (JS.store (close p)) = false) ∧
  scroll_locked (call_all cs p) = isOpen (call_all cs p) ∧
  (∀ es, scroll_locked (dispatch_all es p) = isOpen (dispatch_all es p)).
Proof.
  intros H. split; [|split; [split; reflexivity|split]].
  - intros i Hi. rewrite open_eq.
    destruct (index_in_range (items p) i Hi) as [item ->]. split; reflexivity.
  - revert p H. unfold call_all.
    induction cs as [|c cs' IH]; intros p H; [exact H|].
    cbn [foldl]. apply IH, call_lock_agrees, H.
  - intros es. revert p H. unfold dispatch_all.
    induction es as [|e es IH]; intros p H; [exact H|].
    cbn [foldl]. apply IH, dispatch_lock_agrees, H.
Qed.

Lemma scroll_lock_follows_isOpen_witness :
  scroll_locked (call_all [CallOpen (JS.Int 2); CallNext; CallClose;
                           CallOpen (JS.Int 7); CallPrev] page3)
  = isOpen (call_all [CallOpen (JS.Int 2); CallNext; CallClose;
                      CallOpen (JS.Int 7); CallPrev] page3).
Proof.
  apply (scroll_lock_follows_isOpen page3 _ eq_refl).
Defined.

End Closing.

(** ** The index invariant *)

Section Invariant.

Import Lightbox.

Lemma dispatch_in_range (e : Event) (p : Page) :
  in_range p → in_range (dispatch e p).
Proof.
  intros H. destruct e as [[position| | | |]|key]; cbn [dispatch].
  - case_decide; [|exact H]. apply open_in_range. unfold itemCount. lia.
  - exact H.
  - exact H.
  - by apply prev_in_range.
  - by apply next_in_range.
  - destruct (onKeyDown_cases key p) as [-> | [-> | [-> | ->]]];
      [exact H | by apply prev_in_range | by apply next_in_range | exact H].
Qed.

(** C4. On a gallery with at least one item the constructor yields
    [currentIndex = 0], an inactive modal and [0 <= currentIndex <
    itemCount]; and from a page where that range holds, it holds again after
    [open(i)] with [0 <= i < itemCount], after [next], [prev] and [close],
    and after every sequence of events the listeners handle. *)
Theorem currentIndex_invariant :
  (∀ found overflow,
     found ≠ [] →
     currentIndex (constructor (Some found) overflow) = JS.Int 0 ∧
     isOpen (constructor (Some found) overflow) = false ∧
     in_range (constructor (Some found) overflow)) ∧
  (∀ p,
     0 < itemCount p → in_range p →
     (∀ i, 0 ≤ i < itemCount p → in_range (JS.store (open (JS.Int i) p))) ∧
     in_range (JS.store (next p)) ∧
     in_range (JS.store (prev p)) ∧
     in_range (JS.store (close p))) ∧
  (∀ es p, 0 < itemCount p → in_range p → in_range (dispatch_all es p)).
Proof.
  split; [|split].
  - intros found overflow Hne. split; [reflexivity|]. split; [reflexivity|].
    unfold in_range, itemCount. cbn [constructor currentIndex items].
    destruct found; [done|]. cbn [List.length]. lia.
  - intros p _ H. split; [|split; [|split]].
    + intros i Hi. by apply open_in_range.
    + by apply next_in_range.
    + by apply prev_in_range.
    + by apply close_in_range.
  - intros es. unfold dispatch_all.
    induction es as [|e es IH]; intros p Hn H; [exact H|].
    cbn [foldl]. pose proof (dispatch_in_range e p H) as H'.
    apply IH; [|exact H'].
    unfold in_range in H'. destruct (currentIndex (dispatch e p)); [lia|done].
Qed.

Lemma currentIndex_invariant_witness :
  in_range page3 ∧
  in_range (JS.store (next page3)) ∧
  in_range (dispatch_all [Click (GalleryItem 2); KeyDown "ArrowRight";
                          Click PrevButton; Click Overlay;
                          KeyDown "ArrowLeft"] page3).
Proof.
  destruct currentIndex_invariant as [Hinit [Hstep Hrun]].
  assert (H3 : in_range page3) by (apply (Hinit gallery3 ""); discriminate).
  split; [exact H3|]. split.
  - apply (Hstep page3); [reflexivity | exact H3].
  - apply (Hrun _ page3); [reflexivity | exact H3].
Defined.

End Invariant.

(** ** The scenarios of the paging contract *)

Section Scenarios.

Import Lightbox.

Example forward_through_three :
  shown (dispatch_all [Click (GalleryItem 0)] page3) = ("A", "1", "3") ∧
  shown (dispatch_all [Click (GalleryItem 0); Click NextButton] page3)
    = ("B", "2", "3") ∧
  shown (dispatch_all [Click (GalleryItem 0); Click NextButton;
                       KeyDown "ArrowRight"] page3) = ("C", "3", "3") ∧
  shown (dispatch_all [Click (GalleryItem 0); Click NextButton;
                       KeyDown "ArrowRight"; Click NextButton] page3)
    = ("A", "1", "3").
Proof. repeat split; vm_compute; reflexivity. Qed.

Example backward_from_first :
  shown (dispatch_all [Click (GalleryItem 0); Click PrevButton] page3)
    = ("C", "3", "3").
Proof. vm_compute. reflexivity. Qed.

Example keys_ignored_while_closed :
  dispatch_all [KeyDown "ArrowRight"; KeyDown "Escape"] page3 = page3.
Proof. reflexivity. Qed.

Example close_button_has_no_listener :
  isOpen (dispatch_all [Click (GalleryItem 1); Click CloseButton] page3) = true ∧
  isOpen (dispatch_all [Click (GalleryItem 1); Click Overlay] page3) = false.
Proof. split; vm_compute; reflexivity. Qed.

End Scenarios.

(** ** What the render shows *)

Section Rendering.

Import Lightbox.

Lemma open_found (p : Page) (index : JS.Number) (item : Element) :
  JS.index (items p) index = Some item →
  open index p =
  (JS.Normal tt,
   set_body_overflow "hidden"
     (set_modal
        (set_active true (render item index (JS.length (items p)) (modal p)))
        (set_currentIndex index p))).
Proof. intros H. rewrite open_eq, H. reflexivity. Qed.

Lemma or_empty (v : JS.Value) :
  JS.ToString (JS.or v (JS.Str "")) =
  match v with JS.Str s => s | _ => "" end.
Proof. destruct v as [| |[|a s]]; reflexivity. Qed.

(** X1. After [open] on an item, the caption is its [data-caption]
    attribute, or empty when the attribute is missing; the alt text is its
    [data-alt] attribute unless that is missing or empty, in which case it is
    the item's own [alt] when that is a string, and empty otherwise. *)
Theorem open_caption_and_alt (p : Page) (n : nat) (item : Element) :
  items p !! n = Some item →
  caption_textContent (modal (JS.store (open (JS.Int (Z.of_nat n)) p)))
    = default "" (attributes item !! "data-caption") ∧
  image_alt (modal (JS.store (open (JS.Int (Z.of_nat n)) p)))
    = match attributes item !! "data-alt" with
      | Some (String a s) => String a s
      | _ => alt_or_empty item
      end.
Proof.
  intros H. rewrite (open_found p _ item).
  - cbn [JS.store snd set_body_overflow set_modal modal set_active render
         caption_textContent image_alt].
    rewrite !or_empty. unfold getAttribute, alt_or_empty, JS.or, JS.truthy.
    split.
    + destruct (attributes item !! "data-caption"); reflexivity.
    + destruct (attributes item !! "data-alt") as [[|a s]|]; cbn;
        destruct (alt item) as [| |[|b t]]; reflexivity.
  - unfold JS.index. case_decide; [|lia]. by rewrite Nat2Z.id.
Qed.

Lemma open_caption_and_alt_witness :
  caption_textContent (modal (JS.store (open (JS.Int 1) page3))) = "B" ∧
  image_alt (modal (JS.store (open (JS.Int 1) page3))) = "".
Proof.
  apply (open_caption_and_alt page3 1 (picture "b.jpg" "B")). reflexivity.
Defined.

(** X2. After [open] on an item, the image source is its [data-src]
    attribute unless that is missing or empty, in which case it is the
    item's own [src] turned into a string: for an item that is not an image
    and has no [data-src], the text [undefined]. *)
Theorem open_image_source (p : Page) (n : nat) (item : Element) :
  items p !! n = Some item →
  image_src (modal (JS.store (open (JS.Int (Z.of_nat n)) p)))
    = match attributes item !! "data-src" with
      | Some (String a s) => String a s
      | _ => JS.ToString (src item)
      end ∧
  (attributes item !! "data-src" = None → src item = JS.Undefined →
   image_src (modal (JS.store (open (JS.Int (Z.of_nat n)) p))) = "undefined").
Proof.
  intros H. rewrite (open_found p _ item).
  - cbn [JS.store snd set_body_overflow set_modal modal set_active render
         image_src].
    unfold getAttribute, JS.or, JS.truthy. split.
    + destruct (attributes item !! "data-src") as [[|a s]|]; reflexivity.
    + intros -> ->. reflexivity.
  - unfold JS.index. case_decide; [|lia]. by rewrite Nat2Z.id.
Qed.

Lemma open_image_source_witness :
  image_src (modal (JS.store (open (JS.Int 0)
     (constructor (Some [{| attributes := ∅; src := JS.Undefined;
                            alt := JS.Undefined |}]) ""))))
  = "undefined".
Proof.
  apply (open_image_source _ 0 {| attributes := ∅; src := JS.Undefined;
                                  alt := JS.Undefined |});
    reflexivity.
Defined.

End Rendering.

(** ** The modal as a projection of the state *)

Section Projection.

Import Lightbox.

Lemma moved_to_shows_current (k : JS.Number) (p : Page) (item : Element) :
  JS.index (items p) k = Some item → shows_current (JS.store (moved_to k p)).
Proof.
  intros H. unfold moved_to. rewrite H. exists item. split; [exact H | reflexivity].
Qed.

Lemma open_shows_current (i : Z) (p : Page) :
  0 ≤ i < itemCount p → shows_current (JS.store (open (JS.Int i) p)).
Proof.
  intros Hi. destruct (index_in_range (items p) i Hi) as [item H].
  rewrite (open_found p _ item H). exists item. split; [exact H | reflexivity].
Qed.

Lemma next_shows_current (p : Page) :
  in_range p → shows_current (JS.store (next p)).
Proof.
  unfold in_range. destruct (currentIndex p) as [c|] eqn:Hci; [|tauto].
  intros Hc. rewrite next_eq.
  destruct (index_in_range (items p) ((c + 1) mod itemCount p)) as [item H].
  { apply Z.mod_pos_bound. unfold itemCount in Hc. lia. }
  rewrite <- (next_index_in_range p c Hci Hc) in H.
  by apply (moved_to_shows_current _ _ item).
Qed.

Lemma prev_shows_current (p : Page) :
  in_range p → shows_current (JS.store (prev p)).
Proof.
  unfold in_range. destruct (currentIndex p) as [c|] eqn:Hci; [|tauto].
  intros Hc. rewrite prev_eq.
  destruct (index_in_range (items p) ((c - 1 + itemCount p) mod itemCount p))
    as [item H].
  { apply Z.mod_pos_bound. unfold itemCount in Hc. lia. }
  rewrite <- (prev_index_in_range p c Hci Hc) in H.
  by apply (moved_to_shows_current _ _ item).
Qed.

Lemma call_items (c : Call) (p : Page) : items (listener (call c) p) = items p.
Proof.
  unfold listener. destruct c as [index| | |]; cbn [call].
  - apply open_items.
  - reflexivity.
  - rewrite next_eq. apply moved_to_items.
  - rewrite prev_eq. apply moved_to_items.
Qed.

Lemma dispatch_items (e : Event) (p : Page) : items (dispatch e p) = items p.
Proof.
  destruct e as [[position| | | |]|key]; cbn [dispatch]; try reflexivity.
  - case_decide; [apply open_items | reflexivity].
  - apply (call_items CallPrev).
  - apply (call_items CallNext).
  - destruct (onKeyDown_cases key p) as [-> | [-> | [-> | ->]]];
      [reflexivity | apply (call_items CallPrev) | apply (call_items CallNext)
       | reflexivity].
Qed.

Lemma dispatch_shows_current (e : Event) (p : Page) :
  in_range p →
  (isOpen p = true → shows_current p) →
  isOpen (dispatch e p) = true → shows_current (dispatch e p).
Proof.
  intros Hr Hs. destruct e as [[position| | | |]|key]; cbn [dispatch].
  - case_decide; [|exact Hs]. intros _. apply open_shows_current.
    unfold itemCount. lia.
  - discriminate.
  - exact Hs.
  - intros _. by apply prev_shows_current.
  - intros _. by apply next_shows_current.
  - destruct (onKeyDown_cases key p) as [-> | [-> | [-> | ->]]].
    + exact Hs.
    + intros _. by apply prev_shows_current.
    + intros _. by apply next_shows_current.
    + discriminate.
Qed.

(** X3. On a gallery with at least one item, after any sequence of events
    since construction, an active modal shows the item at [currentIndex]:
    that index is in range, and the two counters read [currentIndex + 1] and
    the number of items. *)
Theorem active_modal_shows_current
    (found : list Element) (overflow : string) (es : list Event) :
  found ≠ [] →
  isOpen (dispatch_all es (constructor (Some found) overflow)) = true →
  shows_current (dispatch_all es (constructor (Some found) overflow)) ∧
  ∃ c, currentIndex (dispatch_all es (constructor (Some found) overflow))
         = JS.Int c ∧
       0 ≤ c < Z.of_nat (List.length found) ∧
       current_textContent
         (modal (dispatch_all es (constructor (Some found) overflow)))
         = pretty (c + 1) ∧
       total_textContent
         (modal (dispatch_all es (constructor (Some found) overflow)))
         = pretty (Z.of_nat (List.length found)).
Proof.
  intros Hne.
  assert (Hinv : ∀ es p,
    in_range p → (isOpen p = true → shows_current p) →
    in_range (dispatch_all es p) ∧ items (dispatch_all es p) = items p ∧
    (isOpen (dispatch_all es p) = true → shows_current (dispatch_all es p))).
  { clear es. intros es. unfold dispatch_all.
    induction es as [|e es IH]; intros p Hr Hs; [done|].
    cbn [foldl].
    destruct (IH (dispatch e p)) as (IH1 & IH2 & IH3).
    - by apply dispatch_in_range.
    - by apply dispatch_shows_current.
    - split; [exact IH1|]. split; [|exact IH3]. rewrite IH2.
      apply dispatch_items. }
  assert (Hclosed : isOpen (constructor (Some found) overflow) = false)
    by reflexivity.
  assert (Hr : in_range (constructor (Some found) overflow)).
  { unfold in_range, itemCount. cbn [constructor currentIndex items].
    destruct found; [done|]. cbn [List.length]. lia. }
  destruct (Hinv es (constructor (Some found) overflow) Hr) as (Hr' & Hitems & Hs').
  { rewrite Hclosed. discriminate. }
  intros Hopen. specialize (Hs' Hopen). split; [exact Hs'|].
  destruct Hs' as (item & Hitem & Hmodal). unfold in_range, itemCount in Hr'.
  rewrite Hitems in Hr'. cbn [constructor items] in Hr'.
  destruct (currentIndex (dispatch_all es (constructor (Some found) overflow)))
    as [c|] eqn:Hci; [|done].
  exists c. split; [reflexivity|]. split; [exact Hr'|].
  rewrite Hmodal, Hitems. split; reflexivity.
Qed.

Lemma active_modal_shows_current_witness :
  shows_current (dispatch_all [Click (GalleryItem 0); Click PrevButton] page3).
Proof.
  apply (active_modal_shows_current gallery3 ""
           [Click (GalleryItem 0); Click PrevButton]).
  - discriminate.
  - vm_compute. reflexivity.
Defined.

(** X4. No call and no event ever changes the list of items. *)
Theorem gallery_is_never_changed (p : Page) :
  (∀ cs, items (call_all cs p) = items p) ∧
  (∀ es, items (dispatch_all es p) = items p).
Proof.
  split.
  - intros cs. revert p. unfold call_all.
    induction cs as [|c cs IH]; intros p; [reflexivity|].
    cbn [foldl]. rewrite IH. apply call_items.
  - intros es. revert p. unfold dispatch_all.
    induction es as [|e es IH]; intros p; [reflexivity|].
    cbn [foldl]. rewrite IH. apply dispatch_items.
Qed.

(** X5. [open] with a valid index forgets what was shown before: the page
    it leaves is the same from any two pages over the same items and, after
    a first [open(i)], a second [open(i)] changes nothing. *)
Theorem open_forgets_history (p q : Page) (i : Z) :
  items p = items q → 0 ≤ i < itemCount p →
  JS.store (open (JS.Int i) p) = JS.store (open (JS.Int i) q) ∧
  open (JS.Int i) (JS.store (open (JS.Int i) p))
    = (JS.Normal tt, JS.store (open (JS.Int i) p)).
Proof.
  intros Hpq Hi. destruct (index_in_range (items p) i Hi) as [item H].
  assert (Hq : JS.index (items q) (JS.Int i) = Some item) by (by rewrite <- Hpq).
  rewrite (open_found p _ item H), (open_found q _ item Hq).
  split.
  - unfold set_body_overflow, set_modal, set_currentIndex, JS.store.
    cbn. rewrite Hpq. reflexivity.
  - rewrite (open_found _ _ item); [reflexivity | exact H].
Qed.

Lemma open_forgets_history_witness :
  JS.store (open (JS.Int 1) showing_last) = JS.store (open (JS.Int 1) page3) ∧
  open (JS.Int 1) (JS.store (open (JS.Int 1) showing_last))
    = (JS.Normal tt, JS.store (open (JS.Int 1) showing_last)).
Proof.
  apply (open_forgets_history showing_last page3 1).
  - reflexivity.
  - vm_compute. split; [discriminate | reflexivity].
Defined.

End Projection.

(** ** The keyboard *)

Section Keyboard.

Import Lightbox.

Lemma key_while_closed (key : string) (p : Page) :
  isOpen p = false → dispatch (KeyDown key) p = p.
Proof.
  intros H. cbn [dispatch]. unfold listener, onKeyDown, JS.bind.
  cbn [JS.get]. rewrite H. reflexivity.
Qed.

(** X6. While the modal is not active no key does anything, however many
    are pressed; while it is active, every key other than [ArrowLeft],
    [ArrowRight] and [Escape] leaves the page as it is. *)
Theorem keyboard_acts_only_on_active_modal (p : Page) :
  (isOpen p = false → ∀ keys, dispatch_all (KeyDown <$> keys) p = p) ∧
  (∀ key, key ≠ "ArrowLeft" → key ≠ "ArrowRight" → key ≠ "Escape" →
          dispatch (KeyDown key) p = p).
Proof.
  split.
  - intros H keys. unfold dispatch_all.
    induction keys as [|key keys IH]; [reflexivity|].
    cbn [fmap list_fmap foldl]. rewrite (key_while_closed key p H). exact IH.
  - intros key H1 H2 H3. cbn [dispatch]. unfold listener, onKeyDown, JS.bind.
    cbn [JS.get]. destruct (negb (isOpen p)); [reflexivity|].
    apply String.eqb_neq in H1, H2, H3. rewrite H1, H2, H3. reflexivity.
Qed.

Lemma keyboard_acts_only_on_active_modal_witness :
  dispatch_all (KeyDown <$> ["ArrowRight"; "Escape"; "ArrowLeft"]) page3 = page3 ∧
  dispatch (KeyDown "Enter") showing_last = showing_last.
Proof.
  destruct (keyboard_acts_only_on_active_modal page3) as [Hclosed _].
  destruct (keyboard_acts_only_on_active_modal showing_last) as [_ Hother].
  split.
  - apply Hclosed. reflexivity.
  - apply Hother; discriminate.
Defined.

End Keyboard.

(** ** Pages without items, and indices gone astray *)

Section Astray.

Import Lightbox.

Lemma set_active_same (m : Modal) : set_active (active m) m = m.
Proof. by destruct m. Qed.

Lemma set_currentIndex_same (p : Page) : set_currentIndex (currentIndex p) p = p.
Proof. by destruct p. Qed.

Lemma dispatch_no_items (e : Event) (p : Page) :
  items p = [] → isOpen p = false →
  modal (dispatch e p) = modal p ∧
  (body_overflow (dispatch e p) = body_overflow p ∨
   body_overflow (dispatch e p) = "").
Proof.
  intros Hitems Hclosed. destruct e as [[position| | | |]|key]; cbn [dispatch].
  - case_decide as Hlt; [|by split; [|left]]. rewrite Hitems in Hlt.
    cbn in Hlt. lia.
  - split; [|by right]. unfold isOpen in Hclosed. cbn.
    destruct (modal p) as [act ? ? ? ? ? ?]. cbn in *. by rewrite Hclosed.
  - by split; [|left].
  - unfold listener. destruct (next_prev_no_items p Hitems) as [_ ->].
    by split; [|left].
  - unfold listener. destruct (next_prev_no_items p Hitems) as [-> _].
    by split; [|left].
  - pose proof (key_while_closed key p Hclosed) as Hk. cbn [dispatch] in Hk.
    rewrite Hk. by split; [|left].
Qed.

(** X7. A lightbox without items stays shut: whatever events arrive, the
    modal is never activated and nothing in it is written, and the page's
    overflow is never set to [hidden]. *)
Theorem empty_gallery_stays_shut (p : Page) (es : list Event) :
  items p = [] → isOpen p = false →
  modal (dispatch_all es p) = modal p ∧
  isOpen (dispatch_all es p) = false ∧
  (body_overflow (dispatch_all es p) = body_overflow p ∨
   body_overflow (dispatch_all es p) = "").
Proof.
  revert p. unfold dispatch_all.
  induction es as [|e es IH]; intros p Hitems Hclosed; [by split; [|split; [|left]]|].
  cbn [foldl]. destruct (dispatch_no_items e p Hitems Hclosed) as [Hm Ho].
  destruct (IH (dispatch e p)) as (IHm & IHc & IHo).
  - by rewrite dispatch_items.
  - unfold isOpen. by rewrite Hm.
  - split; [by rewrite IHm|]. split; [exact IHc|].
    destruct IHo as [IHo|IHo]; [|by right].
    rewrite IHo. exact Ho.
Qed.

Lemma empty_gallery_stays_shut_witness :
  modal (dispatch_all [Click NextButton; KeyDown "ArrowLeft"; Click Overlay;
                       Click PrevButton] page0) = modal page0.
Proof.
  apply (empty_gallery_stays_shut page0); reflexivity.
Defined.

(** X8. Once [currentIndex] is [NaN], [next] and [prev] throw a
    [TypeError] and leave the whole page as it is, however often they are
    called. *)
Theorem nan_index_is_stuck (p : Page) :
  currentIndex p = JS.NaN →
  next p = (JS.Throw JS.TypeError, p) ∧
  prev p = (JS.Throw JS.TypeError, p) ∧
  ∀ k, times k next p = p ∧ times k prev p = p.
Proof.
  intros H.
  assert (Hn : next p = (JS.Throw JS.TypeError, p)).
  { rewrite next_eq. unfold next_index, moved_to. rewrite H. cbn.
    rewrite <- H at 1. by rewrite set_currentIndex_same. }
  assert (Hp : prev p = (JS.Throw JS.TypeError, p)).
  { rewrite prev_eq. unfold prev_index, moved_to. rewrite H. cbn.
    rewrite <- H at 1. by rewrite set_currentIndex_same. }
  split; [exact Hn|]. split; [exact Hp|].
  intros k. induction k as [|k [IHn IHp]]; [done|].
  cbn [times]. unfold listener. rewrite Hn, Hp. done.
Qed.

Lemma nan_index_is_stuck_witness :
  times 4 next (JS.store (next page0)) = JS.store (next page0).
Proof.
  apply (nan_index_is_stuck (JS.store (next page0))). reflexivity.
Defined.

(** X9. On a gallery with at least one item, [next] and [prev] bring a
    non-negative [currentIndex] back into range, also one at or beyond the
    number of items that an unchecked [open] left behind, as long as index
    plus number of items stays within [2^53], where the additions are exact:
    both return normally and store the index reduced modulo the number of
    items. *)
Theorem next_prev_reenter_range (p : Page) (c : Z) :
  0 < itemCount p → currentIndex p = JS.Int c → 0 ≤ c →
  c + itemCount p ≤ 2 ^ 53 →
  (JS.completion (next p) = JS.Normal tt ∧
   currentIndex (JS.store (next p)) = JS.Int ((c + 1) mod itemCount p) ∧
   in_range (JS.store (next p))) ∧
  (JS.completion (prev p) = JS.Normal tt ∧
   currentIndex (JS.store (prev p))
     = JS.Int ((c - 1 + itemCount p) mod itemCount p) ∧
   in_range (JS.store (prev p))).
Proof.
  intros Hn Hci Hc _.
  assert (Hnext : next_index p = JS.Int ((c + 1) mod itemCount p)).
  { unfold next_index, JS.length. rewrite Hci. cbn [JS.add JS.rem].
    fold (itemCount p). case_decide; [lia|].
    by rewrite Z.rem_mod_nonneg by lia. }
  assert (Hprev : prev_index p = JS.Int ((c - 1 + itemCount p) mod itemCount p)).
  { unfold prev_index, JS.length. rewrite Hci. cbn [JS.add JS.sub JS.rem].
    fold (itemCount p). case_decide; [lia|].
    by rewrite Z.rem_mod_nonneg by lia. }
  rewrite next_eq, prev_eq, Hnext, Hprev. unfold in_range.
  rewrite !moved_to_currentIndex, !itemCount_moved_to.
  repeat split; try (apply moved_to_normal); apply Z.mod_pos_bound; lia.
Qed.

Lemma next_prev_reenter_range_witness :
  currentIndex (JS.store (next (JS.store (open (JS.Int 7) page3)))) = JS.Int 2 ∧
  currentIndex (JS.store (prev (JS.store (open (JS.Int 7) page3)))) = JS.Int 0.
Proof.
  destruct (next_prev_reenter_range (JS.store (open (JS.Int 7) page3)) 7)
    as [(_ & Hn & _) (_ & Hp & _)];
    [reflexivity | reflexivity | lia | vm_compute; discriminate |].
  split; [exact Hn | exact Hp].
Defined.

End Astray.

(** ** Longer walks *)

Section Walks.

Import Lightbox.

Lemma times_prev_currentIndex (k : nat) :
  ∀ (p : Page) (c : Z),
    currentIndex p = JS.Int c → 0 ≤ c < itemCount p →
    currentIndex (times k prev p) = JS.Int ((c - Z.of_nat k) mod itemCount p).
Proof.
  induction k as [|k IH]; intros p c Hci Hc.
  - cbn [times]. rewrite Z.sub_0_r, Z.mod_small by lia. exact Hci.
  - cbn [times]. unfold listener.
    assert (Hprev : currentIndex (JS.store (prev p))
                    = JS.Int ((c - 1 + itemCount p) mod itemCount p)).
    { rewrite prev_eq, moved_to_currentIndex. by apply prev_index_in_range. }
    assert (Hcp : itemCount (JS.store (prev p)) = itemCount p).
    { rewrite prev_eq. apply itemCount_moved_to. }
    rewrite (IH _ _ Hprev), Hcp.
    + f_equal. rewrite Zminus_mod_idemp_l.
      replace (c - 1 + itemCount p - Z.of_nat k)
        with (c - Z.of_nat (S k) + 1 * itemCount p) by lia.
      apply Z_mod_plus_full.
    + rewrite Hcp. apply Z.mod_pos_bound. lia.
Qed.

Lemma times_items (k : nat) (c : Call) :
  ∀ p, items (times k (call c) p) = items p.
Proof.
  induction k as [|k IH]; intros p; [reflexivity|].
  cbn [times]. rewrite IH. apply call_items.
Qed.

(** X10. With at least one item and [currentIndex] in range, as many [prev]
    calls as there are items bring [currentIndex] back to where it was, and
    so do [k] calls of [prev] after [k] calls of [next], for every [k]. *)
Theorem prev_retraces_next (p : Page) (c : Z) (k : nat) :
  0 < itemCount p → currentIndex p = JS.Int c → 0 ≤ c < itemCount p →
  currentIndex (times (List.length (items p)) prev p) = currentIndex p ∧
  currentIndex (times k prev (times k next p)) = currentIndex p.
Proof.
  intros Hn Hci Hc. split.
  - rewrite (times_prev_currentIndex _ p c Hci Hc). fold (itemCount p).
    rewrite Hci. f_equal.
    replace (c - itemCount p) with (c + (-1) * itemCount p) by lia.
    rewrite Z_mod_plus_full. apply Z.mod_small. lia.
  - pose proof (times_next_currentIndex k p c Hci Hc) as Hk.
    assert (Hcount : itemCount (times k next p) = itemCount p).
    { unfold itemCount. by rewrite (times_items k CallNext). }
    rewrite (times_prev_currentIndex k _ _ Hk), Hcount, Hci.
    + f_equal. rewrite Zminus_mod_idemp_l.
      replace (c + Z.of_nat k - Z.of_nat k) with c by lia.
      apply Z.mod_small. lia.
    + rewrite Hcount. apply Z.mod_pos_bound. lia.
Qed.

Lemma prev_retraces_next_witness :
  currentIndex (times 3 prev showing_last) = JS.Int 2 ∧
  currentIndex (times 5 prev (times 5 next showing_last)) = JS.Int 2.
Proof.
  apply (prev_retraces_next showing_last 2 5).
  - vm_compute. reflexivity.
  - vm_compute. reflexivity.
  - vm_compute. split; [discriminate | reflexivity].
Defined.

End Walks.

(** ** The wiring of the modal *)

Section Wiring.

Import Lightbox.

Lemma click_paths :
  map Dom.click_path (seq 0 (List.length Dom.modalTable)) =
  [ []; [CallClose; CallClose]; []; []; []; [CallPrev]; [CallPrev]; []; [];
    []; [CallNext]; [CallNext]; []; []; [] ].
Proof. vm_compute. reflexivity. Qed.

Lemma updateLightbox_lookups_found :
  Dom.updateLightbox_lookups = [Some 8; Some 9; Some 13; Some 14]%nat.
Proof. vm_compute. reflexivity. Qed.

(** X11. In the markup of [createModal] the first element carrying
    [data-lightbox-close] is the overlay, so [closeBtn] is the overlay and
    both [close] listeners sit on it.  The button of class [lightbox-close]
    and the icon inside it have no listener, on themselves or on any
    ancestor in the modal: a click on either leaves every page as it is, an
    open lightbox included. *)
Theorem close_button_is_not_wired (k : nat) (p : Page) :
  Dom.modal_querySelector [Dom.Class "lightbox-close"] = Some k ∨
  Dom.modal_querySelector [Dom.Class "close-icon"] = Some k →
  Dom.click_on k p = p ∧
  Dom.modal_querySelector [Dom.Attr "data-lightbox-close"]
    = Dom.modal_querySelector [Dom.Class "lightbox-overlay"] ∧
  Dom.modal_querySelector [Dom.Attr "data-lightbox-close"] ≠ Some k.
Proof.
  intros [H|H]; vm_compute in H; injection H as <-;
    (split; [reflexivity|]); (split; [vm_compute; reflexivity|]);
    vm_compute; discriminate.
Qed.

Lemma close_button_is_not_wired_witness :
  isOpen (Dom.click_on 3 showing_last) = true.
Proof.
  destruct (close_button_is_not_wired 3 showing_last) as (-> & _ & _).
  - left. vm_compute. reflexivity.
  - reflexivity.
Defined.

(** X12. The click cases of [dispatch] are what the markup and the
    registered listeners give: a click on the element of a control, or on the
    icon inside the previous or next button, runs the listeners found on the
    way up from it, and that is the [dispatch] of the control. *)
Theorem clicks_follow_the_markup (t : Target) (k : nat) (p : Page) :
  Dom.control t = Some k ∨
  (t = PrevButton ∧
   Dom.modal_querySelector [Dom.Class "lightbox-prev"; Dom.Class "nav-icon"]
     = Some k) ∨
  (t = NextButton ∧
   Dom.modal_querySelector [Dom.Class "lightbox-next"; Dom.Class "nav-icon"]
     = Some k) →
  Dom.click_on k p = dispatch (Click t) p.
Proof.
  intros [H|[[-> H]|[-> H]]].
  - destruct t as [position| | | |]; vm_compute in H; try discriminate H;
      injection H as <-; reflexivity.
  - vm_compute in H. injection H as <-. reflexivity.
  - vm_compute in H. injection H as <-. reflexivity.
Qed.

Lemma clicks_follow_the_markup_witness :
  Dom.click_on 1 showing_last = dispatch (Click Overlay) showing_last ∧
  Dom.click_on 11 showing_last = dispatch (Click NextButton) showing_last.
Proof.
  split.
  - apply (clicks_follow_the_markup Overlay 1). left. vm_compute. reflexivity.
  - apply (clicks_follow_the_markup NextButton 11). right. right.
    split; [reflexivity | vm_compute; reflexivity].
Defined.

End Wiring.

(** ** The mobile menu *)

Section Menu.

Import MobileMenu.

Lemma menu_open_eq (s : Site) (h m : bool) :
  hamburger (this s) = Some h → menu (this s) = Some m →
  open s = (JS.Normal tt, opened s).
Proof.
  intros Hh Hm.
  unfold open, classList_active, animateMenuItems, JS.bind, JS.modify, JS.get.
  cbn. rewrite Hh. cbn. rewrite Hm. reflexivity.
Qed.

Lemma menu_close_eq (s : Site) (h m : bool) :
  hamburger (this s) = Some h → menu (this s) = Some m →
  close s = (JS.Normal tt, shut s).
Proof.
  intros Hh Hm.
  unfold close, classList_active, animateMenuItems, JS.bind, JS.modify, JS.get.
  cbn. rewrite Hh. cbn. rewrite Hm. reflexivity.
Qed.

Lemma menu_toggle_eq (s : Site) (h m : bool) :
  hamburger (this s) = Some h → menu (this s) = Some m →
  toggle s = (JS.Normal tt, if isOpen (this s) then shut s else opened s).
Proof.
  intros Hh Hm. unfold toggle, JS.bind. cbn [JS.get].
  destruct (isOpen (this s));
    [by apply (menu_close_eq s h m) | by apply (menu_open_eq s h m)].
Qed.

(** Whatever was found, a menu method writes nothing of the lightbox but
    the overflow. *)
Lemma menu_method_frame (method : Method) (s : Site) :
  method = open ∨ method = close ∨ method = toggle →
  items (lightbox (JS.store (method s))) = items (lightbox s) ∧
  currentIndex (lightbox (JS.store (method s))) = currentIndex (lightbox s) ∧
  modal (lightbox (JS.store (method s))) = modal (lightbox s).
Proof.
  destruct s as [p [[h|] [m|] links o]]; intros [-> | [-> | ->]];
    try destruct o; done.
Qed.

Lemma menu_close_isOpen (s : Site) : isOpen (this (JS.store (close s))) = false.
Proof. by destruct s as [p [[h|] [m|] links o]]. Qed.

Lemma slide_length (d : Direction) (links : list Link) :
  List.length (slide d links) = List.length links.
Proof. unfold slide. apply length_imap. Qed.

Lemma dispatch_in_step (e : Site.Event) (s : Site) :
  in_step (this s) →
  in_step (this (Site.dispatch e s)) ∧
  List.length (menuLinks (this (Site.dispatch e s)))
    = List.length (menuLinks (this s)) ∧
  (Site.menu_only e = true → balanced s → balanced (Site.dispatch e s)).
Proof.
  intros [Hh Hm].
  assert (Hclose : ∀ p, Site.listener close (set_lightbox p s)
                        = shut (set_lightbox p s)).
  { intros p. unfold Site.listener.
    by rewrite (menu_close_eq _ (isOpen (this s)) (isOpen (this s))). }
  assert (Hclose' : Site.listener close s = shut s).
  { unfold Site.listener.
    by rewrite (menu_close_eq _ (isOpen (this s)) (isOpen (this s))). }
  assert (Hshut : ∀ q, this q = this s →
    in_step (this (shut q)) ∧
    List.length (menuLinks (this (shut q))) = List.length (menuLinks (this s)) ∧
    balanced (shut q)).
  { intros q Hq. repeat split. cbn. by rewrite slide_length, Hq. }
  destruct e as [|position|target outside|outside|key|width];
    cbn [Site.dispatch Site.menu_only].
  - rewrite Hh. unfold Site.listener.
    rewrite (menu_toggle_eq _ _ _ Hh Hm).
    destruct (isOpen (this s)); cbn [JS.store snd].
    + destruct (Hshut s eq_refl) as (? & ? & ?). done.
    + repeat split. cbn. apply slide_length.
  - case_decide; [|done]. rewrite Hclose'.
    destruct (Hshut s eq_refl) as (? & ? & ?). done.
  - unfold Site.onDocumentClick. cbn [this set_lightbox].
    destruct (isOpen (this s) && outside) eqn:Hc.
    + rewrite Hclose. split; [|split; [|discriminate]];
        by apply (Hshut (set_lightbox _ s)).
    + by split; [|split; [|discriminate]].
  - unfold Site.onDocumentClick.
    destruct (isOpen (this s) && outside); [|done]. rewrite Hclose'.
    destruct (Hshut s eq_refl) as (? & ? & ?). done.
  - by split; [|split; [|discriminate]].
  - unfold Site.onResize.
    destruct (bool_decide (768 < width) && isOpen (this s)); [|done].
    rewrite Hclose'. destruct (Hshut s eq_refl) as (? & ? & ?). done.
Qed.

(** X13. When hamburger and menu were both found and their [active]
    class agrees with [isOpen], they still agree after any sequence of
    events, and the menu keeps its number of links; if no event of the
    sequence reaches the lightbox, the page's overflow stays [hidden]
    exactly while the menu is open. *)
Theorem menu_stays_in_step (es : list Site.Event) (s : Site) :
  in_step (this s) →
  in_step (this (Site.dispatch_all es s)) ∧
  List.length (menuLinks (this (Site.dispatch_all es s)))
    = List.length (menuLinks (this s)) ∧
  (forallb Site.menu_only es = true → balanced s →
   balanced (Site.dispatch_all es s)).
Proof.
  revert s. unfold Site.dispatch_all.
  induction es as [|e es IH]; intros s H; [done|].
  cbn [foldl forallb]. destruct (dispatch_in_step e s H) as (H1 & H2 & H3).
  destruct (IH _ H1) as (IH1 & IH2 & IH3).
  split; [exact IH1|]. split; [by rewrite IH2|].
  intros [He Hes]%andb_prop Hb. auto.
Qed.

Lemma menu_stays_in_step_witness :
  in_step (this (Site.dispatch_all
    [Site.HamburgerClick; Site.Resize 1024; Site.HamburgerClick;
     Site.OtherClick true] site3)) ∧
  balanced (Site.dispatch_all
    [Site.HamburgerClick; Site.Resize 1024; Site.HamburgerClick;
     Site.OtherClick true] site3).
Proof.
  destruct (menu_stays_in_step
    [Site.HamburgerClick; Site.Resize 1024; Site.HamburgerClick;
     Site.OtherClick true] site3) as (H1 & _ & H3).
  - split; reflexivity.
  - split; [exact H1|]. apply H3; reflexivity.
Defined.

(** X14. With hamburger and menu both found, two clicks on the hamburger
    in a row leave [isOpen] as it was, set both [active] classes to it, and
    leave the overflow [hidden] if the menu is open and empty if not; the
    lightbox's items, index and modal are not touched. *)
Theorem hamburger_twice (s : Site) (h m : bool) :
  hamburger (this s) = Some h → menu (this s) = Some m →
  isOpen (this (Site.dispatch Site.HamburgerClick
                  (Site.dispatch Site.HamburgerClick s))) = isOpen (this s) ∧
  in_step (this (Site.dispatch Site.HamburgerClick
                   (Site.dispatch Site.HamburgerClick s))) ∧
  balanced (Site.dispatch Site.HamburgerClick
              (Site.dispatch Site.HamburgerClick s)) ∧
  set_body_overflow (body_overflow (lightbox s))
    (lightbox (Site.dispatch Site.HamburgerClick
                 (Site.dispatch Site.HamburgerClick s))) = lightbox s.
Proof.
  intros Hh Hm. cbn [Site.dispatch]. rewrite Hh. unfold Site.listener.
  rewrite (menu_toggle_eq s h m Hh Hm).
  destruct s as [[its mo ci ov] [hb mn links o]].
  destruct o; cbn; repeat split.
Qed.

Lemma hamburger_twice_witness :
  isOpen (this (Site.dispatch Site.HamburgerClick
                  (Site.dispatch Site.HamburgerClick site3))) = false ∧
  body_overflow (lightbox (Site.dispatch Site.HamburgerClick
                  (Site.dispatch Site.HamburgerClick site3))) = "".
Proof.
  destruct (hamburger_twice site3 false false) as (H1 & _ & H3 & _);
    [reflexivity | reflexivity |].
  split; [exact H1|]. unfold balanced in H3. rewrite H1 in H3. exact H3.
Defined.

Lemma dispatch_keeps_menu_shut (e : Site.Event) (s : Site) :
  e ≠ Site.HamburgerClick → isOpen (this s) = false →
  isOpen (this (Site.dispatch e s)) = false.
Proof.
  intros He H.
  destruct e as [|position|target outside|outside|key|width];
    cbn [Site.dispatch]; [done| | | |exact H|].
  - case_decide; [apply menu_close_isOpen | exact H].
  - unfold Site.onDocumentClick. cbn [this set_lightbox]. by rewrite H.
  - unfold Site.onDocumentClick. by rewrite H.
  - unfold Site.onResize. rewrite H. by rewrite andb_false_r.
Qed.

(** X15. Only a click on the hamburger opens the menu: from a closed
    menu, no sequence of events without such a click leaves it open. *)
Theorem menu_opens_only_by_hamburger (es : list Site.Event) (s : Site) :
  Site.HamburgerClick ∉ es → isOpen (this s) = false →
  isOpen (this (Site.dispatch_all es s)) = false.
Proof.
  revert s. unfold Site.dispatch_all.
  induction es as [|e es IH]; intros s Hes H; [exact H|].
  cbn [foldl]. apply not_elem_of_cons in Hes as [He Hes].
  apply IH; [exact Hes|]. by apply dispatch_keeps_menu_shut.
Qed.

Lemma menu_opens_only_by_hamburger_witness :
  isOpen (this (Site.dispatch_all
    [Site.MenuLinkClick 0; Site.Resize 500; Site.OtherClick true;
     Site.LightboxClick (Lightbox.GalleryItem 1) true] site3)) = false.
Proof.
  apply (menu_opens_only_by_hamburger _ site3); [|reflexivity].
  intros H. repeat (apply elem_of_cons in H as [H|H]; [discriminate H|]).
  by apply elem_of_nil in H.
Defined.

(** X16. When the hamburger was found and the menu was not, [open] and
    [close] set [isOpen] and the hamburger's class and then throw a
    [TypeError] at the missing menu: the overflow is never written and no
    link is animated, so each click on the hamburger flips [isOpen] and
    nothing else of the page follows. *)
Theorem menu_missing (s : Site) (h : bool) :
  hamburger (this s) = Some h → menu (this s) = None →
  open s = (JS.Throw JS.TypeError,
            set_this (set_hamburger (Some true) (set_isOpen true (this s))) s) ∧
  close s = (JS.Throw JS.TypeError,
             set_this (set_hamburger (Some false) (set_isOpen false (this s))) s) ∧
  lightbox (Site.dispatch Site.HamburgerClick s) = lightbox s ∧
  isOpen (this (Site.dispatch Site.HamburgerClick s)) = negb (isOpen (this s)).
Proof.
  intros Hh Hm. destruct s as [p [hb mn links o]]. cbn in Hh, Hm. subst.
  repeat split. by destruct o.
  by destruct o.
Qed.

Lemma menu_missing_witness :
  JS.completion (open {| lightbox := page3;
                         this := constructor (Some false) None |})
  = JS.Throw JS.TypeError.
Proof.
  destruct (menu_missing {| lightbox := page3;
                            this := constructor (Some false) None |} false)
    as (-> & _); reflexivity.
Defined.

(** X17. When the hamburger was not found, [open] and [close] throw a
    [TypeError] right after writing [isOpen], and a menu that is closed
    stays exactly as it is under every sequence of events: its links'
    clicks throw and change nothing, and the menu never writes the
    overflow. *)
Theorem hamburger_missing (s : Site) (es : list Site.Event) :
  hamburger (this s) = None →
  open s = (JS.Throw JS.TypeError, set_this (set_isOpen true (this s)) s) ∧
  close s = (JS.Throw JS.TypeError, set_this (set_isOpen false (this s)) s) ∧
  (isOpen (this s) = false →
   this (Site.dispatch_all es s) = this s ∧
   (forallb Site.menu_only es = true → Site.dispatch_all es s = s)).
Proof.
  intros Hh.
  assert (Hopen : ∀ q, hamburger (this q) = None →
    open q = (JS.Throw JS.TypeError, set_this (set_isOpen true (this q)) q)).
  { intros [p [hb mn links o]] Hq. cbn in Hq. by subst. }
  assert (Hclose : ∀ q, hamburger (this q) = None →
    close q = (JS.Throw JS.TypeError, set_this (set_isOpen false (this q)) q)).
  { intros [p [hb mn links o]] Hq. cbn in Hq. by subst. }
  split; [by apply Hopen|]. split; [by apply Hclose|].
  revert s Hh. unfold Site.dispatch_all.
  induction es as [|e es IH]; intros s Hh Hc; [done|].
  cbn [foldl forallb].
  assert (Hsame : ∀ q, hamburger (this q) = None → isOpen (this q) = false →
                       Site.listener close q = q).
  { intros [p [hb mn links o]] Hq Ho. cbn in Hq, Ho. by subst. }
  assert (He : this (Site.dispatch e s) = this s ∧
               (Site.menu_only e = true → Site.dispatch e s = s)).
  { destruct e as [|position|target outside|outside|key|width];
      cbn [Site.dispatch Site.menu_only].
    - by rewrite Hh.
    - case_decide; [by rewrite Hsame|done].
    - unfold Site.onDocumentClick. cbn [this set_lightbox]. by rewrite Hc.
    - unfold Site.onDocumentClick. by rewrite Hc.
    - done.
    - unfold Site.onResize. by rewrite Hc, andb_false_r. }
  destruct He as [He1 He2].
  destruct (IH (Site.dispatch e s)) as [IH1 IH2].
  - by rewrite He1.
  - by rewrite He1.
  - split; [by rewrite IH1|].
    intros [H1 H2]%andb_prop. rewrite (He2 H1) in *. by apply IH2.
Qed.

Lemma hamburger_missing_witness :
  Site.dispatch_all [Site.MenuLinkClick 0; Site.Resize 900; Site.OtherClick true]
    {| lightbox := page3;
       this := constructor None
         (Some (false, [{| animation := ""; animationDelay := AsThePageHadIt |}])) |}
  = {| lightbox := page3;
       this := constructor None
         (Some (false, [{| animation := ""; animationDelay := AsThePageHadIt |}])) |}.
Proof.
  destruct (hamburger_missing
    {| lightbox := page3;
       this := constructor None
         (Some (false, [{| animation := ""; animationDelay := AsThePageHadIt |}])) |}
    [Site.MenuLinkClick 0; Site.Resize 900; Site.OtherClick true])
    as (_ & _ & H); [reflexivity|].
  destruct H as [_ H]; [reflexivity|]. apply H. reflexivity.
Defined.

End Menu.

(** ** Menu and lightbox on one page *)

Section Together.

Import MobileMenu.

(** X18. A click on a gallery item outside an open menu opens the
    lightbox and, through the menu's document listener that runs after it,
    closes the menu, whose [close] empties the overflow: the lightbox ends
    up open on a page that scrolls. *)
Theorem gallery_click_under_open_menu
    (s : Site) (position : nat) (h m : bool) :
  hamburger (this s) = Some h → menu (this s) = Some m →
  isOpen (this s) = true →
  (position < List.length (items (lightbox s)))%nat →
  Lightbox.isOpen
    (lightbox (Site.dispatch
       (Site.LightboxClick (Lightbox.GalleryItem position) true) s)) = true ∧
  isOpen
    (this (Site.dispatch
       (Site.LightboxClick (Lightbox.GalleryItem position) true) s)) = false ∧
  body_overflow
    (lightbox (Site.dispatch
       (Site.LightboxClick (Lightbox.GalleryItem position) true) s)) = "" ∧
  scroll_locked
    (lightbox (Site.dispatch
       (Site.LightboxClick (Lightbox.GalleryItem position) true) s)) = false.
Proof.
  intros Hh Hm Ho Hpos. cbn [Site.dispatch]. unfold Site.onDocumentClick.
  cbn [this set_lightbox]. rewrite Ho. cbn [andb]. unfold Site.listener.
  rewrite (menu_close_eq (set_lightbox _ s) h m Hh Hm).
  cbn [JS.store snd shut lightbox set_lightbox].
  split; [|by repeat split].
  cbn [Lightbox.dispatch]. case_decide; [|lia].
  unfold Lightbox.listener.
  destruct (index_in_range (items (lightbox s)) (Z.of_nat position))
    as [item Hitem]; [lia|].
  by rewrite (open_found _ _ item Hitem).
Qed.

Lemma gallery_click_under_open_menu_witness :
  Lightbox.isOpen
    (lightbox (Site.dispatch_all
       [Site.HamburgerClick;
        Site.LightboxClick (Lightbox.GalleryItem 1) true] site3)) = true ∧
  scroll_locked
    (lightbox (Site.dispatch_all
       [Site.HamburgerClick;
        Site.LightboxClick (Lightbox.GalleryItem 1) true] site3)) = false.
Proof.
  destruct (gallery_click_under_open_menu
              (Site.dispatch Site.HamburgerClick site3) 1 true true)
    as (H1 & _ & _ & H4); try reflexivity.
  - vm_compute. lia.
  - split; [exact H1 | exact H4].
Defined.

Lemma site_dispatch_lightbox (e : Site.Event) (s : Site) :
  ∃ p,
    (p = lightbox s ∨ ∃ e', p = Lightbox.dispatch e' (lightbox s)) ∧
    items (lightbox (Site.dispatch e s)) = items p ∧
    currentIndex (lightbox (Site.dispatch e s)) = currentIndex p ∧
    modal (lightbox (Site.dispatch e s)) = modal p.
Proof.
  assert (Hclose : ∀ q,
    items (lightbox (Site.listener close q)) = items (lightbox q) ∧
    currentIndex (lightbox (Site.listener close q)) = currentIndex (lightbox q) ∧
    modal (lightbox (Site.listener close q)) = modal (lightbox q)).
  { intros q. apply (menu_method_frame close). auto. }
  destruct e as [|position|target outside|outside|key|width];
    cbn [Site.dispatch].
  - exists (lightbox s). split; [by left|].
    destruct (hamburger (this s)); [|done].
    apply (menu_method_frame toggle). auto.
  - exists (lightbox s). split; [by left|]. case_decide; [apply Hclose|done].
  - exists (Lightbox.dispatch (Lightbox.Click target) (lightbox s)).
    split; [right; by eexists|]. unfold Site.onDocumentClick.
    destruct (isOpen _ && outside); [apply Hclose|done].
  - exists (lightbox s). split; [by left|]. unfold Site.onDocumentClick.
    destruct (isOpen _ && outside); [apply Hclose|done].
  - exists (Lightbox.dispatch (Lightbox.KeyDown key) (lightbox s)).
    split; [right; by eexists|]. done.
  - exists (lightbox s). split; [by left|]. unfold Site.onResize.
    destruct (bool_decide _ && isOpen _); [apply Hclose|done].
Qed.

(** X19. With the menu's listeners on the same page, the lightbox keeps
    its index in range and its items: after any sequence of clicks, keys and
    resizes, [0 <= currentIndex < itemCount] holds if it held before, and
    the list of items is the same. *)
Theorem index_in_range_on_the_whole_page (es : list Site.Event) (s : Site) :
  in_range (lightbox s) →
  in_range (lightbox (Site.dispatch_all es s)) ∧
  items (lightbox (Site.dispatch_all es s)) = items (lightbox s).
Proof.
  revert s. unfold Site.dispatch_all.
  induction es as [|e es IH]; intros s H; [done|].
  cbn [foldl].
  destruct (site_dispatch_lightbox e s) as (p & Hp & Hi & Hc & _).
  assert (Hr : in_range p ∧ items p = items (lightbox s)).
  { destruct Hp as [->|[e' ->]]; [done|].
    split; [by apply dispatch_in_range | apply dispatch_items]. }
  destruct Hr as [Hr Hitems].
  destruct (IH (Site.dispatch e s)) as [IH1 IH2].
  - unfold in_range, itemCount in *. by rewrite Hc, Hi.
  - split; [exact IH1|]. by rewrite IH2, Hi.
Qed.

Lemma index_in_range_on_the_whole_page_witness :
  in_range (lightbox (Site.dispatch_all
    [Site.LightboxClick (Lightbox.GalleryItem 2) true; Site.HamburgerClick;
     Site.KeyDown "ArrowRight"; Site.Resize 1200;
     Site.LightboxClick Lightbox.PrevButton true] site3)).
Proof.
  apply (index_in_range_on_the_whole_page _ site3).
  vm_compute. split; [discriminate | reflexivity].
Defined.

End Together.

(** ** [debounce] and [throttle] *)

Section Timers.

Import Utilities.

Context {A : Type}.

Lemma invoked_snoc (steps : list (Step A)) (s : Step A) :
  invoked (steps ++ [s]) =
  invoked steps ++ match s with Invoke a => [a] | Elapse _ => [] end.
Proof. unfold invoked. rewrite omap_app. by destruct s. Qed.

Lemma elapsed_snoc (steps : list (Step A)) (s : Step A) :
  elapsed (steps ++ [s]) =
  elapsed steps ++ match s with Invoke _ => [] | Elapse id => [id] end.
Proof. unfold elapsed. rewrite omap_app. by destruct s. Qed.

Lemma debounce_inv_step (steps : list (Step A)) (s : Step A) (d : Debounced A) :
  debounce_inv steps d → debounce_inv (steps ++ [s]) (debounce_step s d).
Proof.
  intros [Hshape Hcount]. unfold debounce_inv.
  rewrite invoked_snoc, elapsed_snoc, length_app.
  destruct s as [a|id']; cbn [debounce_step].
  - split; [|cbn; lia]. right.
    exists (next_id d), a, (invoked steps). cbn.
    repeat split.
    + destruct Hshape as [[Hl _]|(id & b & xs & Hl & Ht & _ & _)].
      * rewrite Hl. destruct (timeout d); cbn; by rewrite ?delete_empty, insert_empty.
      * rewrite Hl, Ht. cbn. by rewrite delete_singleton_eq, insert_empty.
    + destruct Hshape as [[_ Hs]|(id & b & xs & _ & _ & -> & Hs)]; [done|].
      by apply sublist_inserts_r.
  - unfold run_later.
    destruct Hshape as [[Hl Hs]|(id & b & xs & Hl & Ht & Hi & Hs)].
    + rewrite Hl, lookup_empty. rewrite app_nil_r.
      split; [by left|cbn; lia].
    + rewrite Hl. destruct (decide (id = id')) as [<-|Hne].
      * rewrite lookup_singleton_eq. cbn. split; [|rewrite length_app; cbn; lia].
        left. rewrite Ht. cbn. rewrite delete_singleton_eq, delete_empty.
        split; [done|]. rewrite app_nil_r, Hi. by apply sublist_app.
      * rewrite lookup_singleton_ne by done. rewrite app_nil_r.
        split; [|cbn; lia]. right. by exists id, b, xs.
Qed.

Lemma debounce_run_snoc (steps : list (Step A)) (s : Step A) (d : Debounced A) :
  debounce_run (steps ++ [s]) d = debounce_step s (debounce_run steps d).
Proof. unfold debounce_run. by rewrite foldl_snoc. Qed.

Lemma debounce_run_invokes (xs : list A) (x : A) (d : Debounced A) :
  debounce_run (Invoke <$> xs ++ [x]) d
  = executedFunction x (debounce_run (Invoke <$> xs) d).
Proof.
  rewrite fmap_app. change (Invoke <$> [x]) with [@Invoke A x].
  apply debounce_run_snoc.
Qed.

Lemma debounce_inv_run (first_id : nat) (steps : list (Step A)) :
  debounce_inv steps (debounce_run steps (debounce first_id)).
Proof.
  induction steps as [|s steps IH] using rev_ind.
  - split; [left; split; [done|constructor]|done].
  - rewrite debounce_run_snoc. by apply debounce_inv_step.
Qed.

(** X20. Whatever the order of calls and timer runs on a debounced
    function, [func] is called only with arguments the wrapper was called
    with, in the order they came, and at most once per timer run; and at most
    one timer waits at any time. *)
Theorem debounce_passes_calls_in_order (first_id : nat) (steps : list (Step A)) :
  func_calls (debounce_run steps (debounce first_id))
    `sublist_of` invoked steps ∧
  (List.length (func_calls (debounce_run steps (debounce first_id)))
     ≤ List.length (elapsed steps))%nat ∧
  ∀ id1 id2,
    is_Some (later (debounce_run steps (debounce first_id)) !! id1) →
    is_Some (later (debounce_run steps (debounce first_id)) !! id2) →
    id1 = id2.
Proof.
  destruct (debounce_inv_run first_id steps) as [Hshape Hcount].
  split; [|split; [exact Hcount|]].
  - destruct Hshape as [[_ Hs]|(id & b & xs & _ & _ & -> & Hs)]; [done|].
    by apply sublist_inserts_r.
  - intros id1 id2. destruct Hshape as [[-> _]|(id & b & xs & -> & _)].
    + intros H. by apply lookup_empty_is_Some in H.
    + intros H1%lookup_singleton_is_Some H2%lookup_singleton_is_Some.
      congruence.
Qed.

(** X21. After a burst of calls to a debounced function, whatever
    happened before, exactly one timer waits; no call of the burst has
    reached [func] yet; and when that timer runs, [func] is called once, with
    the arguments of the last call of the burst, and no timer is left. *)
Theorem debounce_runs_last_call_once
    (first_id : nat) (before : list (Step A)) (burst : list A) (last : A) :
  ∃ id,
    later (debounce_run (Invoke <$> burst ++ [last])
             (debounce_run before (debounce first_id))) = {[id := last]} ∧
    func_calls (debounce_run (Invoke <$> burst ++ [last])
                  (debounce_run before (debounce first_id)))
      = func_calls (debounce_run before (debounce first_id)) ∧
    func_calls (run_later id
                  (debounce_run (Invoke <$> burst ++ [last])
                     (debounce_run before (debounce first_id))))
      = func_calls (debounce_run before (debounce first_id)) ++ [last] ∧
    later (run_later id
             (debounce_run (Invoke <$> burst ++ [last])
                (debounce_run before (debounce first_id)))) = ∅.
Proof.
  set (d0 := debounce_run before (debounce first_id)).
  assert (Hcalls : ∀ (xs : list A) (d : Debounced A),
            func_calls (debounce_run (Invoke <$> xs) d) = func_calls d).
  { intros xs. induction xs as [|x xs IH] using rev_ind; intros d; [done|].
    rewrite debounce_run_invokes. apply IH. }
  assert (Hall : debounce_run (Invoke <$> burst ++ [last]) d0
                 = debounce_run (before ++ (Invoke <$> burst ++ [last]))
                     (debounce first_id)).
  { unfold d0, debounce_run. by rewrite foldl_app. }
  pose proof (debounce_inv_run first_id (before ++ (Invoke <$> burst ++ [last])))
    as [Hshape _].
  rewrite <- Hall in Hshape. clear Hall.
  assert (Hlast : debounce_run (Invoke <$> burst ++ [last]) d0
                  = executedFunction last (debounce_run (Invoke <$> burst) d0)).
  { apply debounce_run_invokes. }
  destruct Hshape as [[Hl _]|(id & b & xs & Hl & Ht & Hi & _)].
  { exfalso. rewrite Hlast in Hl. cbn in Hl.
    apply (f_equal (λ m, m !! next_id (debounce_run (Invoke <$> burst) d0))) in Hl.
    by rewrite lookup_insert_eq, lookup_empty in Hl. }
  assert (b = last) as ->.
  { rewrite fmap_app in Hi. change (Invoke <$> [last]) with [@Invoke A last] in Hi.
    rewrite app_assoc, invoked_snoc in Hi.
    by apply app_inj_tail in Hi as [_ ->]. }
  exists id. split; [exact Hl|]. split; [apply Hcalls|].
  unfold run_later. rewrite Hl, lookup_singleton_eq. cbn.
  rewrite Hcalls, Ht. cbn.
  by rewrite delete_singleton_eq, delete_empty.
Qed.

End Timers.

(** ** [throttle] *)

Section Throttle.

Import Utilities.

Context {A : Type}.

Lemma Call_nested_ind (P : Call A → Prop) :
  (∀ args during outcome, Forall P during → P (Call_with args during outcome)) →
  ∀ c, P c.
Proof.
  intros H. fix IH 1. intros [args during outcome]. apply H.
  induction during as [|c cs IHcs]; constructor; [apply IH | exact IHcs].
Qed.

(** The wrapper, with the calls made during [func] as a fold. *)
Lemma throttled_eq (args : A) (during : list (Call A)) (outcome : Outcome)
    (t : Throttled A) :
  throttled (Call_with args during outcome) t =
  if inThrottle t then t
  else
    let applied :=
      foldl (λ q c, throttled c q)
        {| resets := resets t; next_reset := next_reset t;
           inThrottle := inThrottle t; passed := passed t ++ [args] |}
        during in
    match outcome with
    | Throws => applied
    | Returns =>
        {| resets := {[next_reset applied]} ∪ resets applied;
           next_reset := S (next_reset applied);
           inThrottle := true;
           passed := passed applied |}
    end.
Proof.
  cbn [throttled]. destruct (inThrottle t); [reflexivity|].
  set (t1 := {| resets := resets t; next_reset := next_reset t;
                inThrottle := false; passed := passed t ++ [args] |}).
  assert (Heach : ∀ cs q,
    (fix each (cs : list (Call A)) (t : Throttled A) : Throttled A :=
       match cs with
       | [] => t
       | c' :: cs' => each cs' (throttled c' t)
       end) cs q = foldl (λ q c, throttled c q) q cs).
  { intros cs. induction cs as [|c cs IHcs]; intros q; [reflexivity|].
    cbn [foldl]. apply IHcs. }
  by rewrite Heach.
Qed.

Lemma arguments_of_eq (args : A) (during : list (Call A)) (outcome : Outcome) :
  arguments_of (Call_with args during outcome) = args :: (during ≫= arguments_of).
Proof.
  reflexivity.
Qed.


(** Whatever [func] does, a call keeps a waiting release and only adds
    arguments of its own to those passed. *)
Lemma throttled_any (c : Call A) :
  ∀ t, release_pending t →
       release_pending (throttled c t) ∧
       ∃ more, passed (throttled c t) = passed t ++ more ∧
               more `sublist_of` arguments_of c.
Proof.
  induction c as [args during outcome IH] using Call_nested_ind.
  intros t Ht. rewrite throttled_eq, arguments_of_eq.
  destruct (inThrottle t) eqn:Hin.
  { split; [exact Ht|]. exists []. split; [by rewrite app_nil_r|].
    apply sublist_nil_l. }
  set (t1 := {| resets := resets t; next_reset := next_reset t;
                inThrottle := false; passed := passed t ++ [args] |}).
  assert (Hfold : ∀ q, release_pending q →
    release_pending (foldl (λ q c, throttled c q) q during) ∧
    ∃ more, passed (foldl (λ q c, throttled c q) q during) = passed q ++ more ∧
            more `sublist_of` (during ≫= arguments_of)).
  { clear t1. induction IH as [|c cs Hc _ IHcs]; intros q Hq.
    - split; [exact Hq|]. exists []. split; [by rewrite app_nil_r|constructor].
    - cbn [foldl mbind list_bind]. destruct (Hc q Hq) as (Hq' & m1 & Hp1 & Hs1).
      destruct (IHcs _ Hq') as (Hq'' & m2 & Hp2 & Hs2).
      split; [exact Hq''|]. exists (m1 ++ m2).
      split; [by rewrite Hp2, Hp1, app_assoc | by apply sublist_app]. }
  destruct (Hfold t1) as (H1 & more & Hp & Hs); [discriminate|].
  cbn zeta. fold t1.
  assert (Hmore : passed (foldl (λ q c, throttled c q) t1 during)
                  = passed t ++ args :: more).
  { rewrite Hp. cbn [t1 passed]. by rewrite <- app_assoc. }
  destruct outcome; cbn [passed].
  - split.
    + intros _. exists (next_reset (foldl (λ q c, throttled c q) t1 during)).
      cbn [resets]. apply elem_of_union_l. by apply elem_of_singleton.
    + exists (args :: more). split; [exact Hmore | by constructor].
  - split; [exact H1|].
    exists (args :: more). split; [exact Hmore | by constructor].
Qed.

Lemma run_reset_release_pending (id : nat) (t : Throttled A) :
  release_pending t → release_pending (run_reset id t).
Proof. unfold run_reset. intros H. case_decide; [discriminate | exact H]. Qed.

Lemma throttle_run_snoc (steps : list (Throttle_step A)) (s : Throttle_step A)
    (t : Throttled A) :
  throttle_run (steps ++ [s]) t = throttle_step s (throttle_run steps t).
Proof. unfold throttle_run. by rewrite foldl_snoc. Qed.

Lemma requested_snoc (steps : list (Throttle_step A)) (s : Throttle_step A) :
  requested (steps ++ [s]) =
  requested steps ++ match s with Calls c => arguments_of c | Fires _ => [] end.
Proof. unfold requested. rewrite bind_app. cbn. by rewrite app_nil_r. Qed.

Lemma fired_snoc (steps : list (Throttle_step A)) (s : Throttle_step A) :
  fired (steps ++ [s]) =
  fired steps ++ match s with Calls _ => [] | Fires id => [id] end.
Proof. unfold fired. rewrite omap_app. by destruct s. Qed.

Lemma throttle_run_any (first_id : nat) (steps : list (Throttle_step A)) :
  release_pending (throttle_run steps (throttle first_id)) ∧
  passed (throttle_run steps (throttle first_id)) `sublist_of` requested steps.
Proof.
  induction steps as [|s steps [IH1 IH2]] using rev_ind.
  - split; [discriminate | constructor].
  - rewrite throttle_run_snoc, requested_snoc. destruct s as [c|id]; cbn.
    + destruct (throttled_any c _ IH1) as (H1 & more & -> & Hs).
      split; [exact H1 | by apply sublist_app].
    + split; [by apply run_reset_release_pending|].
      rewrite app_nil_r. unfold run_reset. by case_decide.
Qed.

Lemma throttled_plain (c : Call A) (t : Throttled A) :
  plain c = true →
  ∃ args, c = Call_with args [] Returns ∧
    throttled c t =
    if inThrottle t then t
    else {| resets := {[next_reset t]} ∪ resets t;
            next_reset := S (next_reset t);
            inThrottle := true;
            passed := passed t ++ [args] |}.
Proof.
  destruct c as [args [|c cs] [|]]; try discriminate. intros _.
  exists args. split; [reflexivity|]. rewrite throttled_eq.
  by destruct (inThrottle t).
Qed.

Lemma throttle_inv_step (steps : list (Throttle_step A)) (s : Throttle_step A)
    (t : Throttled A) :
  plain_step s = true →
  throttle_inv steps t → throttle_inv (steps ++ [s]) (throttle_step s t).
Proof.
  intros Hplain (Hcount & Hshape). unfold throttle_inv.
  rewrite fired_snoc, !length_app.
  destruct s as [c|id']; cbn [throttle_step].
  - destruct (throttled_plain c t Hplain) as (args & -> & ->).
    destruct Hshape as [[Hin Hres]|[Hin [id Hres]]]; rewrite Hin in *.
    + cbn. rewrite length_app. cbn. split; [lia|]. right. split; [done|].
      exists (next_reset t). rewrite Hres. apply union_empty_r_L.
    + rewrite Hin. split; [cbn; lia|]. right. split; [done|]. by exists id.
  - unfold run_reset.
    destruct Hshape as [[Hin Hres]|[Hin [id Hres]]]; rewrite Hin in *.
    + case_decide as Hel; [by rewrite Hres, elem_of_empty in Hel|].
      rewrite Hin. split; [cbn; lia|]. by left.
    + case_decide as Hel.
      * cbn. split; [lia|]. left. split; [done|].
        rewrite Hres in Hel |- *. apply elem_of_singleton in Hel as ->.
        apply difference_diag_L.
      * rewrite Hin. split; [cbn; lia|]. right.
        split; [done|]. by exists id.
Qed.

Lemma throttle_inv_run (first_id : nat) (steps : list (Throttle_step A)) :
  forallb plain_step steps = true →
  throttle_inv steps (throttle_run steps (throttle first_id)).
Proof.
  induction steps as [|s steps IH] using rev_ind; intros Hplain.
  - split; [done|]. by left.
  - rewrite forallb_app in Hplain. apply andb_prop in Hplain as [H1 H2].
    cbn in H2. rewrite andb_true_r in H2.
    rewrite throttle_run_snoc. by apply throttle_inv_step; [|apply IH].
Qed.

(** X22. Whatever the order of calls and timer runs on a throttled
    function, and whatever [func] does, [func] is called only with arguments
    the wrapper was called with, in the order the calls began, and while
    [inThrottle] is set a reset timer waits that will unset it.  When [func]
    always returns and never calls its wrapper, [func] is moreover called at
    most once more often than a timer has run, and a reset timer waits
    exactly while [inThrottle] is set, never more than one. *)
Theorem throttle_passes_calls_in_order
    (first_id : nat) (steps : list (Throttle_step A)) :
  passed (throttle_run steps (throttle first_id)) `sublist_of` requested steps ∧
  (inThrottle (throttle_run steps (throttle first_id)) = true →
   ∃ id, id ∈ resets (throttle_run steps (throttle first_id))) ∧
  (forallb plain_step steps = true →
   (List.length (passed (throttle_run steps (throttle first_id)))
      ≤ List.length (fired steps) + 1)%nat ∧
   (inThrottle (throttle_run steps (throttle first_id)) = false ∧
    resets (throttle_run steps (throttle first_id)) = ∅ ∨
    inThrottle (throttle_run steps (throttle first_id)) = true ∧
    ∃ id, resets (throttle_run steps (throttle first_id)) = {[id]})).
Proof.
  destruct (throttle_run_any first_id steps) as [Hrel Hsub].
  split; [exact Hsub|]. split; [exact Hrel|]. intros Hplain.
  destruct (throttle_inv_run first_id steps Hplain) as (Hcount & Hshape).
  split; [lia | exact Hshape].
Qed.



End Throttle.

Lemma throttle_passes_calls_in_order_witness :
  (List.length
     (Utilities.passed
        (Utilities.throttle_run
           [Utilities.Calls (Utilities.Call_with 1%nat [] Utilities.Returns);
            Utilities.Calls (Utilities.Call_with 2%nat [] Utilities.Returns);
            Utilities.Fires 0;
            Utilities.Calls (Utilities.Call_with 3%nat [] Utilities.Returns)]
           (Utilities.throttle 0)))
   ≤ 1 + 1)%nat.
Proof.
  destruct (throttle_passes_calls_in_order 0
    [Utilities.Calls (Utilities.Call_with 1%nat [] Utilities.Returns);
     Utilities.Calls (Utilities.Call_with 2%nat [] Utilities.Returns);
     Utilities.Fires 0;
     Utilities.Calls (Utilities.Call_with 3%nat [] Utilities.Returns)])
    as (_ & _ & H).
  destruct H as [H _]; [reflexivity | exact H].
Defined.


Example throttle_reentrant_func_starts_two_timers :
  size (Utilities.resets
    (Utilities.throttled
       (Utilities.Call_with "outer"
          [Utilities.Call_with "inner" [] Utilities.Returns] Utilities.Returns)
       (Utilities.throttle 0))) = 2%nat.
Proof. vm_compute. reflexivity. Qed.

Example debounce_three_calls_then_timer :
  Utilities.func_calls
    (Utilities.debounce_run
       [Utilities.Invoke "a"; Utilities.Invoke "b"; Utilities.Invoke "c";
        Utilities.Elapse 2; Utilities.Elapse 0]
       (Utilities.debounce 0))
  = ["c"].
Proof. vm_compute. reflexivity. Qed.
